(** * Asset graph: construction, cycle detection and staleness propagation

    A shallow embedding of the algorithmic core of
    [js_modules/dagit/packages/core/src/workspace/AssetGraphRoot.tsx]:
    [getNodeDimensions], [runForDisplay], [buildGraphData], [graphHasCycles],
    [buildGraphComputeStatuses] and [findComputeStatusForId].

    Conventions of the embedding.
    - A JavaScript string is a [string]; its [length] is the number of code
      units (code units below 256 are represented).
    - A plain JavaScript object used as a dictionary is an association list in
      property-creation order ([JsObject.t]); all keys used by the program are
      [JSON.stringify] outputs, which start with an opening bracket, so they
      are never integer-like keys (which JavaScript would reorder) and never
      names inherited from [Object.prototype].
    - Dictionaries that are only ever read by key ([timestamps], [upstream],
      [statuses]) are finite maps ([gmap]).
    - Numbers are rationals ([Q]): timestamps are only compared, and the width
      formula multiplies a string length by 9.5, which is exact in binary
      floating point for every representable string length.
    - The recursions whose termination depends on the input
      ([search], the [while] loop of [graphHasCycles], [findComputeStatusForId])
      take a fuel argument and return [None] when it runs out; a computation
      that returns [None] for every fuel is one that never returns.
    - The composition of [buildGraphData] and [buildGraphComputeStatuses] is
      embedded a second time over a store of mutable objects, to state what
      an invocation reads and leaves behind; it is shown to compute, on every
      store, the map of the store-free embedding. *)

From Stdlib Require Import Ascii String QArith Qminmax.
From stdpp Require Import base option list strings relations gmap fin_maps.

Local Open Scope string_scope.
Local Open Scope list_scope.
Local Open Scope nat_scope.
Set Warnings "-clear-no-such-hyp".

(** ** Data model (the shape of the GraphQL query result) *)

Record AssetKey := { path : list string }.

Record StepStats := {
  stepKey : string;
  startTime : option Q;
  endTime : option Q;
}.

Record MaterializationEvent := { stepStats : option StepStats }.

(** [runOrError]: the query selects fields only on the [PipelineRun] variant;
    every other variant of the union carries its [__typename] alone. *)
Inductive RunOrError :=
  | PipelineRun (id runId status pipelineName mode : string)
  | PipelineRunNotFoundError
  | PythonError.

Record AssetMaterialization := {
  materializationEvent : MaterializationEvent;
  runOrError : RunOrError;
}.

Module UpstreamAsset.
Record t := { id : string; assetKey : AssetKey }.
End UpstreamAsset.

Record Dependency := {
  inputName : string;
  upstreamAsset : UpstreamAsset.t;
}.

Record AssetDefinition := {
  assetKey : AssetKey;
  opName : option string;
  description : option string;
  jobNames : list string;
  dependencies : list Dependency;
  assetMaterializations : list AssetMaterialization;
}.

Module Node.
Record t := {
  id : string;
  assetKey : AssetKey;
  definition : AssetDefinition;
}.
End Node.

Inductive Status := good | old | downstream_from_old | none.

Global Instance Status_eq_dec : EqDecision Status.
Proof. solve_decision. Defined.

(** ** JavaScript objects as ordered dictionaries *)

Module JsObject.
Definition t (V : Type) := list (string * V).

(** [o[k]] *)
Fixpoint get {V} (o : t V) (k : string) : option V :=
  match o with
  | [] => None
  | (k', v) :: o' => if String.eqb k' k then Some v else get o' k
  end.

(** [o[k] = v]: an existing property keeps its position, a new one is
    appended. *)
Fixpoint set {V} (o : t V) (k : string) (v : V) : t V :=
  match o with
  | [] => [(k, v)]
  | (k', v') :: o' =>
      if String.eqb k' k then (k', v) :: o' else (k', v') :: set o' k v
  end.

(** [Object.keys(o)] and [Object.values(o)] *)
Definition keys {V} (o : t V) : list string := map fst o.
Definition values {V} (o : t V) : list V := map snd o.
End JsObject.

(** [xs.some(f)] for a callback [f] that reads and writes a state [S] and may
    fail to return: elements are visited in order and the visit stops at the
    first [true]. *)
Fixpoint some_st {A S : Type} (f : S → A → option (bool * S))
    (xs : list A) (s : S) : option (bool * S) :=
  match xs with
  | [] => Some (false, s)
  | x :: xs' =>
      match f s x with
      | None => None
      | Some (true, s') => Some (true, s')
      | Some (false, s') => some_st f xs' s'
      end
  end.

(** ** [JSON.stringify] on an array of strings *)

Definition dquote : ascii := ascii_of_nat 34.
Definition backslash : ascii := ascii_of_nat 92.

Definition hex_digit (n : nat) : ascii :=
  match String.get n "0123456789abcdef" with
  | Some c => c
  | None => "0"%char
  end.

(** QuoteJSONString, one code unit at a time. *)
Definition quote_code_unit (c : ascii) : string :=
  let n := nat_of_ascii c in
  if Nat.eqb n 8 then String backslash "b"
  else if Nat.eqb n 9 then String backslash "t"
  else if Nat.eqb n 10 then String backslash "n"
  else if Nat.eqb n 12 then String backslash "f"
  else if Nat.eqb n 13 then String backslash "r"
  else if Nat.eqb n 34 then String backslash (String dquote "")
  else if Nat.eqb n 92 then String backslash (String backslash "")
  else if Nat.ltb n 32 then
    String backslash
      ("u00" ++ String (hex_digit (n / 16)) (String (hex_digit (n mod 16)) ""))%string
  else String c "".

Fixpoint quote_json_string_body (s : string) : string :=
  match s with
  | EmptyString => ""
  | String c s' => (quote_code_unit c ++ quote_json_string_body s')%string
  end.

Definition quote_json_string (s : string) : string :=
  String dquote (quote_json_string_body s ++ String dquote "")%string.

(** [xs.join(sep)] *)
Fixpoint join (sep : string) (xs : list string) : string :=
  match xs with
  | [] => ""
  | [x] => x
  | x :: xs' => (x ++ sep ++ join sep xs')%string
  end.

Definition JSON_stringify (p : list string) : string :=
  ("[" ++ join "," (map quote_json_string p) ++ "]")%string.

(** ** [getNodeDimensions] and [runForDisplay] *)

Inductive Exception := TypeError.

Record Dimensions := { width : Q; height : Z }.

(** [d.assetMaterializations[0]?.runOrError] is [undefined] on an empty list,
    and reading [__typename] of [undefined] throws. *)
Definition runForDisplay (d : AssetDefinition) : Exception + option RunOrError :=
  match head (assetMaterializations d) with
  | None => inl TypeError
  | Some m =>
      match runOrError m with
      | PipelineRun _ _ _ _ _ as run => inr (Some run)
      | _ => inr None
      end
  end.

(** Truthiness of a nullable string: [null] and the empty string are falsy. *)
Definition truthy_string (s : option string) : bool :=
  match s with
  | Some s => negb (String.eqb s "")
  | None => false
  end.

Definition getNodeDimensions (def : AssetDefinition) : Exception + Dimensions :=
  let height := 40%Z in
  let height := if truthy_string (description def) then (height + 25)%Z else height in
  let height_or_exn :=
    if negb (Nat.eqb (length (assetMaterializations def)) 0) then
      let height := (height + 22)%Z in
      match runForDisplay def with
      | inl e => inl e
      | inr (Some _) => inr (height + 22)%Z
      | inr None => inr height
      end
    else inr height in
  match height_or_exn with
  | inl e => inl e
  | inr height =>
      inr {| width :=
               (Qmax 250 (inject_Z (Z.of_nat (String.length (join ">" (path (assetKey def))))) * 9.5) + 25)%Q;
             height := height |}
  end.

(** ** [buildGraphData] *)

Record GraphData := {
  nodes : JsObject.t Node.t;
  downstream : JsObject.t (JsObject.t string);
}.

Definition add_dependency (assetKeyJson : string)
    (downstream : JsObject.t (JsObject.t string)) (dependency : Dependency)
    : JsObject.t (JsObject.t string) :=
  let upstreamAssetKeyJson :=
    JSON_stringify (path (UpstreamAsset.assetKey (upstreamAsset dependency))) in
  JsObject.set downstream upstreamAssetKeyJson
    (JsObject.set (default [] (JsObject.get downstream upstreamAssetKeyJson))
       assetKeyJson (inputName dependency)).

Definition add_definition (acc : GraphData) (definition : AssetDefinition) : GraphData :=
  let assetKeyJson := JSON_stringify (path (assetKey definition)) in
  {| nodes :=
       JsObject.set (nodes acc) assetKeyJson
         {| Node.id := assetKeyJson;
            Node.assetKey := assetKey definition;
            Node.definition := definition |};
     downstream :=
       fold_left (add_dependency assetKeyJson) (dependencies definition) (downstream acc) |}.

Definition buildGraphData (assetDefinitions : list AssetDefinition) : GraphData :=
  fold_left add_definition assetDefinitions {| nodes := []; downstream := [] |}.

(** ** [graphHasCycles] *)

(** [Object.keys(graphData.downstream[upstreamId] || {})] *)
Definition downstreamIds_of (graphData : GraphData) (upstreamId : string) : list string :=
  JsObject.keys (default [] (JsObject.get (downstream graphData) upstreamId)).

(** The local function [search]. The [Set] of nodes still to visit is threaded
    through the calls; [nodes.delete(node)] answers [true] exactly when [node]
    was in the set. *)
Fixpoint search (fuel : nat) (graphData : GraphData) (stack : list string)
    (nodes : list string) (node : string) : option (bool * list string) :=
  match fuel with
  | O => None
  | S fuel' =>
      if bool_decide (node ∈ stack) then Some (true, nodes)
      else if bool_decide (node ∈ nodes) then
        let nodes := filter (λ n, n ≠ node) nodes in
        let nextStack := stack ++ [node] in
        some_st
          (λ nodes nextNode, search fuel' graphData nextStack nodes nextNode)
          (downstreamIds_of graphData node) nodes
      else Some (false, nodes)
  end.

(** The loop [while (nodes.size !== 0) { hasCycles = hasCycles || search([], first) }].
    When [hasCycles] is already [true] the right operand of [||] is not
    evaluated, so [search] is not called and [nodes] is left as it is. *)
Fixpoint while_nodes (fuel : nat) (graphData : GraphData)
    (nodes : list string) (hasCycles : bool) : option bool :=
  match fuel with
  | O => None
  | S fuel' =>
      match nodes with
      | [] => Some hasCycles
      | first :: _ =>
          if hasCycles then while_nodes fuel' graphData nodes true
          else
            match search fuel' graphData [] nodes first with
            | None => None
            | Some (found, nodes') => while_nodes fuel' graphData nodes' found
            end
      end
  end.

Definition graphHasCycles (fuel : nat) (graphData : GraphData) : option bool :=
  while_nodes fuel graphData (JsObject.keys (nodes graphData)) false.

(** ** [buildGraphComputeStatuses] and [findComputeStatusForId] *)

(** [assetMaterializations[0]?.materializationEvent.stepStats?.startTime || 0] *)
Definition latest_startTime (def : AssetDefinition) : Q :=
  match head (assetMaterializations def) with
  | None => 0
  | Some m =>
      match stepStats (materializationEvent m) with
      | None => 0
      | Some stats =>
          match startTime stats with
          | None => 0
          | Some t => if Qeq_bool t 0 then 0 else t
          end
      end
  end.

(** [a > b] on numbers that may be [undefined]: a comparison with
    [undefined] is [false]. *)
Definition js_gt (a b : option Q) : bool :=
  match a, b with
  | Some x, Some y => negb (Qle_bool x y)
  | _, _ => false
  end.

Fixpoint findComputeStatusForId (fuel : nat) (timestamps : gmap string Q)
    (statuses : gmap string Status) (upstream : gmap string (list string))
    (id : string) : option (Status * gmap string Status) :=
  match fuel with
  | O => None
  | S fuel' =>
      let ts := timestamps !! id in
      let upstreamIds := default [] (upstream !! id) in
      match statuses !! id with
      | Some s => Some (s, statuses)
      | None =>
          if existsb (λ uid, js_gt (timestamps !! uid) ts) upstreamIds
          then Some (old, <[id := old]> statuses)
          else
            match
              some_st
                (λ statuses uid,
                   match findComputeStatusForId fuel' timestamps statuses upstream uid with
                   | None => None
                   | Some (s, statuses') => Some (bool_decide (s ≠ good), statuses')
                   end)
                upstreamIds statuses
            with
            | None => None
            | Some (true, statuses') =>
                Some (downstream_from_old, <[id := downstream_from_old]> statuses')
            | Some (false, statuses') => Some (good, <[id := good]> statuses')
            end
      end
  end.

Definition collect_timestamps (graphData : GraphData) : gmap string Q :=
  fold_left
    (λ (timestamps : gmap string Q) node,
       <[Node.id node := latest_startTime (Node.definition node)]> timestamps)
    (JsObject.values (nodes graphData)) ∅.

(** The ids iterated by the outer loop are the keys of [graphData.downstream],
    so the inner [Object.keys(graphData.downstream[upstreamId])] is always
    applied to an existing property. *)
Definition collect_upstream (graphData : GraphData) : gmap string (list string) :=
  fold_left
    (λ (upstream : gmap string (list string)) upstreamId,
       fold_left
         (λ (upstream : gmap string (list string)) downstreamId,
            <[downstreamId := default [] (upstream !! downstreamId) ++ [upstreamId]]> upstream)
         (downstreamIds_of graphData upstreamId) upstream)
    (JsObject.keys (downstream graphData)) ∅.

Definition mark_unmaterialized (graphData : GraphData) : gmap string Status :=
  fold_left
    (λ (statuses : gmap string Status) asset,
       if Nat.eqb (length (assetMaterializations (Node.definition asset))) 0
       then <[Node.id asset := none]> statuses
       else statuses)
    (JsObject.values (nodes graphData)) ∅.

(** The last loop of [buildGraphComputeStatuses]. *)
Fixpoint compute_each (fuel : nat) (timestamps : gmap string Q)
    (upstream : gmap string (list string)) (assets : list Node.t)
    (statuses : gmap string Status) : option (gmap string Status) :=
  match assets with
  | [] => Some statuses
  | asset :: assets' =>
      let id := JSON_stringify (path (Node.assetKey asset)) in
      match findComputeStatusForId fuel timestamps statuses upstream id with
      | None => None
      | Some (s, statuses') =>
          compute_each fuel timestamps upstream assets' (<[id := s]> statuses')
      end
  end.

Definition buildGraphComputeStatuses (fuel : nat) (graphData : GraphData)
    : option (gmap string Status) :=
  compute_each fuel (collect_timestamps graphData) (collect_upstream graphData)
    (JsObject.values (nodes graphData)) (mark_unmaterialized graphData).

(** ** Sample inputs *)

Definition key (name : string) : AssetKey := {| path := [name] |}.

Definition dep (input upstream : string) : Dependency :=
  {| inputName := input;
     upstreamAsset := {| UpstreamAsset.id := upstream; UpstreamAsset.assetKey := key upstream |} |}.

Definition materialized_at (t : Q) : list AssetMaterialization :=
  [ {| materializationEvent :=
         {| stepStats := Some {| stepKey := "step"; startTime := Some t; endTime := Some t |} |};
       runOrError := PipelineRunNotFoundError |} ].

Definition asset (name : string) (deps : list Dependency)
    (mats : list AssetMaterialization) : AssetDefinition :=
  {| assetKey := key name; opName := None; description := None; jobNames := [];
     dependencies := deps; assetMaterializations := mats |}.

Definition idA := Eval vm_compute in JSON_stringify ["A"].
Definition idB := Eval vm_compute in JSON_stringify ["B"].
Definition idC := Eval vm_compute in JSON_stringify ["C"].
Definition idD := Eval vm_compute in JSON_stringify ["D"].

(** The directed cycle A → B → C → A. *)
Definition cycle3 : list AssetDefinition :=
  [asset "A" [dep "in" "C"] []; asset "B" [dep "in" "A"] []; asset "C" [dep "in" "B"] []].

(** A cycle A → B → A and a node C that the traversal of the cycle does
    not visit. *)
Definition cycle_and_spare : list AssetDefinition :=
  [asset "A" [dep "in" "B"] []; asset "B" [dep "in" "A"] []; asset "C" [] []].

(** A materialized asset that depends on itself. *)
Definition self_loop : list AssetDefinition :=
  [asset "A" [dep "in" "A"] (materialized_at 5)].

(** A → B → C with the given timestamps. *)
Definition chain3 (ta tb tc : Q) : list AssetDefinition :=
  [asset "A" [] (materialized_at ta);
   asset "B" [dep "in" "A"] (materialized_at tb);
   asset "C" [dep "in" "B"] (materialized_at tc)].

(** A → B, A → C, B → D, C → D: D is reached twice. *)
Definition diamond : list AssetDefinition :=
  [asset "A" [] (materialized_at 1);
   asset "B" [dep "in" "A"] [];
   asset "C" [dep "in" "A"] (materialized_at 3);
   asset "D" [dep "left" "B"; dep "right" "C"] (materialized_at 4)].

(** B declares two dependencies on A under different input names. *)
Definition two_inputs : list AssetDefinition :=
  [asset "A" [] []; asset "B" [dep "x" "A"; dep "y" "A"] []].

(** B depends on D, which no definition declares. *)
Definition dangling : list AssetDefinition :=
  [asset "A" [] (materialized_at 1); asset "B" [dep "in" "A"; dep "gone" "D"] (materialized_at 2)].

(** Position of an id in a list, used as a rank. *)
Fixpoint position (order : list string) (s : string) : nat :=
  match order with
  | [] => 0
  | x :: order' => if String.eqb x s then 0 else S (position order' s)
  end.

Definition alphabetical : string → nat := position [idA; idB; idC; idD].

(** ** Vocabulary of the statements *)

(** [u → d]: [d] is a key of [graphData.downstream[u]]. *)
Definition edge (g : GraphData) (u d : string) : Prop := d ∈ downstreamIds_of g u.

(** The input name recorded for the pair, [graphData.downstream[u][d]]. *)
Definition lookup_edge (g : GraphData) (u d : string) : option string :=
  JsObject.get (downstream g) u ≫= λ ds, JsObject.get ds d.

(** An entry [d: input] is present under [u]. *)
Definition edge_with_input (g : GraphData) (u d input : string) : Prop :=
  (d, input) ∈ default [] (JsObject.get (downstream g) u).

(** The dependency records of a definition list, in declaration order, as
    (upstream id, downstream id, input name). *)
Definition declared_edges (defs : list AssetDefinition) : list (string * string * string) :=
  flat_map
    (λ def,
       map (λ dependency,
              (JSON_stringify (path (UpstreamAsset.assetKey (upstreamAsset dependency))),
               JSON_stringify (path (assetKey def)),
               inputName dependency))
         (dependencies def))
    defs.

(** The input name of the last record declared for the pair [(u, d)]. *)
Fixpoint last_input (edges : list (string * string * string)) (u d : string)
    : option string :=
  match edges with
  | [] => None
  | (u', d', input) :: edges' =>
      match last_input edges' u d with
      | Some later => Some later
      | None => if bool_decide (u' = u ∧ d' = d) then Some input else None
      end
  end.

(** Node keys are unique, and every node is stored under its own id, which
    is the serialization of its asset key. *)
Definition wf_nodes (g : GraphData) : Prop :=
  NoDup (JsObject.keys (nodes g)) ∧
  ∀ k n, (k, n) ∈ nodes g →
    Node.id n = k ∧ JSON_stringify (path (Node.assetKey n)) = k.

(** Every edge ends in a node (its source may be dangling). *)
Definition targets_are_nodes (g : GraphData) : Prop :=
  ∀ u d, edge g u d → d ∈ JsObject.keys (nodes g).

Definition add_edge (downstream : JsObject.t (JsObject.t string))
    (e : string * string * string) : JsObject.t (JsObject.t string) :=
  let '(u, d, input) := e in
  JsObject.set downstream u (JsObject.set (default [] (JsObject.get downstream u)) d input).

(** What the dependency loop maintains about [downstream]: outer and inner
    keys are unique and inner keys belong to [K]. *)
Definition downstream_ok (K : list string) (ds : JsObject.t (JsObject.t string)) : Prop :=
  NoDup (JsObject.keys ds) ∧
  ∀ u, NoDup (JsObject.keys (default [] (JsObject.get ds u))) ∧
       ∀ d, d ∈ JsObject.keys (default [] (JsObject.get ds u)) → d ∈ K.

Definition build_inv (g : GraphData) : Prop :=
  wf_nodes g ∧ downstream_ok (JsObject.keys (nodes g)) (downstream g).

(** The graph has no directed cycle: no node reaches itself along one or
    more edges. *)
Definition acyclic (g : GraphData) : Prop := ∀ x, ¬ tc (edge g) x x.

(** A checkable certificate of acyclicity: a rank that grows along every
    recorded edge. *)
Definition ranked (rank : string → nat) (g : GraphData) : bool :=
  forallb
    (λ entry : string * JsObject.t string,
       forallb (λ d, Nat.ltb (rank entry.1) (rank d)) (JsObject.keys entry.2))
    (downstream g).

(** [u] is listed among the direct upstream ids of [d]. *)
Definition upstream_of (upstream : gmap string (list string)) (d u : string) : Prop :=
  u ∈ default [] (upstream !! d).

(** Some direct upstream of [id] has a collected timestamp strictly greater
    than the timestamp of [id]. *)
Definition has_newer_upstream (timestamps : gmap string Q)
    (upstream : gmap string (list string)) (id : string) : bool :=
  existsb (λ uid, js_gt (timestamps !! uid) (timestamps !! id))
    (default [] (upstream !! id)).

(** The three-way classification of [id], read against a status map. *)
Definition status_rule (timestamps : gmap string Q)
    (upstream : gmap string (list string)) (statuses : gmap string Status)
    (id : string) (s : Status) : Prop :=
  if has_newer_upstream timestamps upstream id then s = old
  else
    (s = downstream_from_old ∧
     ∃ u s', upstream_of upstream id u ∧ statuses !! u = Some s' ∧ s' ≠ good) ∨
    (s = good ∧ ∀ u, upstream_of upstream id u → statuses !! u = Some good).

(** Every recorded status was either assigned before the recursion started
    or obeys the classification rule. *)
Definition statuses_ok (timestamps : gmap string Q)
    (upstream : gmap string (list string)) (initial statuses : gmap string Status) : Prop :=
  ∀ id s, statuses !! id = Some s →
    initial !! id = Some s ∨ status_rule timestamps upstream statuses id s.

(** Order on status maps during one visit: entries are kept, and new keys
    satisfy [P]. *)
Definition grows_within (P : string → Prop) (st st' : gmap string Status) : Prop :=
  st ⊆ st' ∧ ∀ k, is_Some (st' !! k) → is_Some (st !! k) ∨ P k.

(** [id] is the key of a node of the graph. *)
Definition is_node (g : GraphData) (id : string) : Prop :=
  id ∈ JsObject.keys (nodes g).

(** [u] is a direct upstream of [id] whose collected timestamp is strictly
    greater than the collected timestamp of [id]. *)
Definition newer_upstream (g : GraphData) (id u : string) : Prop :=
  edge g u id ∧
  js_gt (collect_timestamps g !! u) (collect_timestamps g !! id) = true.

(** ** Further vocabulary *)

(** The node that [buildGraphData] creates for a definition. *)
Definition node_of (def : AssetDefinition) : Node.t :=
  {| Node.id := JSON_stringify (path (assetKey def));
     Node.assetKey := assetKey def;
     Node.definition := def |}.

(** The last definition of the list whose serialized asset key is [k]. *)
Fixpoint last_definition (defs : list AssetDefinition) (k : string)
    : option AssetDefinition :=
  match defs with
  | [] => None
  | def :: defs' =>
      match last_definition defs' k with
      | Some later => Some later
      | None =>
          if bool_decide (JSON_stringify (path (assetKey def)) = k) then Some def else None
      end
  end.

(** A node whose traversal is complete: it was deleted from the set (of the
    [ids] the set started with) and is no longer on the stack. *)
Definition finished (ids nodes stack : list string) (x : string) : Prop :=
  x ∈ ids ∧ (x ∉ nodes) ∧ (x ∉ stack).

(** Finished nodes lead to finished nodes only, of strictly smaller rank. *)
Definition finished_ranked (g : GraphData) (ids nodes stack : list string) : Prop :=
  ∃ rank : string → nat,
    ∀ x d, finished ids nodes stack x → edge g x d →
      finished ids nodes stack d ∧ rank d < rank x.

(** The part of the render callback of [AssetGraphRoot] that produces the
    status map: [buildGraphData], then [graphHasCycles], then
    [hasCycles ? {} : buildGraphComputeStatuses(graphData)]. *)
Definition render_computeStatuses (fuel : nat) (assetDefinitions : list AssetDefinition)
    : option (gmap string Status) :=
  let graphData := buildGraphData assetDefinitions in
  match graphHasCycles fuel graphData with
  | None => None
  | Some hasCycles =>
      if hasCycles then Some (∅ : gmap string Status)
      else buildGraphComputeStatuses fuel graphData
  end.

(** [x] is the id of a node without materialization. *)
Definition unmaterialized (g : GraphData) (x : string) : Prop :=
  ∃ n, n ∈ JsObject.values (nodes g) ∧ Node.id n = x ∧
       assetMaterializations (Node.definition n) = [].

(** Everything upstream of [id], at any distance and [id] included, is
    materialized when it is a node and has no newer direct upstream. *)
Definition fresh_cone (g : GraphData) (id : string) : Prop :=
  ∀ x, rtc (edge g) x id → ¬ unmaterialized g x ∧ ∀ u, ¬ newer_upstream g x u.

(** Reading one quoted code unit back from the front of a string: the
    inverse of [quote_code_unit] on its outputs. *)
Definition hex_value (c : ascii) : option nat :=
  (fix find (n : nat) (digits : string) : option nat :=
     match digits with
     | EmptyString => None
     | String d digits' => if Ascii.eqb d c then Some n else find (S n) digits'
     end) 0 "0123456789abcdef".

Definition unquote_code_unit (s : string) : option (ascii * string) :=
  match s with
  | EmptyString => None
  | String c rest =>
      if Ascii.eqb c backslash then
        match rest with
        | EmptyString => None
        | String e rest' =>
            if Ascii.eqb e "b" then Some (ascii_of_nat 8, rest')
            else if Ascii.eqb e "t" then Some (ascii_of_nat 9, rest')
            else if Ascii.eqb e "n" then Some (ascii_of_nat 10, rest')
            else if Ascii.eqb e "f" then Some (ascii_of_nat 12, rest')
            else if Ascii.eqb e "r" then Some (ascii_of_nat 13, rest')
            else if Ascii.eqb e dquote then Some (dquote, rest')
            else if Ascii.eqb e backslash then Some (backslash, rest')
            else if Ascii.eqb e "u" then
              match rest' with
              | String _ (String _ (String h (String l rest''))) =>
                  match hex_value h, hex_value l with
                  | Some a, Some b => Some (ascii_of_nat (16 * a + b), rest'')
                  | _, _ => None
                  end
              | _ => None
              end
            else None
        end
      else if Ascii.eqb c dquote then None
      else Some (c, rest)
  end.

(** What follows the first element in the output of [JSON.stringify]. *)
Fixpoint json_array_tail (p : list string) : string :=
  match p with
  | [] => "]"
  | x :: p' => ("," ++ quote_json_string x ++ json_array_tail p')%string
  end.

(** [run?.pipelineName] for the result of [runForDisplay]. *)
Definition pipelineName_of (run : option RunOrError) : option string :=
  match run with
  | Some (PipelineRun _ _ _ pipelineName _) => Some pipelineName
  | _ => None
  end.

(** [nodeSelection && runForDisplay(nodeSelection.definition)?.pipelineName]
    in the render callback; [nodeSelection] is a node or [undefined]. *)
Definition nodeSelectionPipeline (nodeSelection : option Node.t)
    : Exception + option string :=
  match nodeSelection with
  | None => inr None
  | Some node =>
      match runForDisplay (Node.definition node) with
      | inl e => inl e
      | inr run => inr (pipelineName_of run)
      end
  end.

(** [ns.filter((n) => runForDisplay(n.definition)?.pipelineName === name)]:
    the callback runs on the elements in order and an exception ends the
    filter. *)
Fixpoint filter_same_pipeline (ns : list Node.t) (name : string)
    : Exception + list Node.t :=
  match ns with
  | [] => inr []
  | n :: ns' =>
      match runForDisplay (Node.definition n) with
      | inl e => inl e
      | inr run =>
          match filter_same_pipeline ns' name with
          | inl e => inl e
          | inr kept =>
              inr (if bool_decide (pipelineName_of run = Some name) then n :: kept else kept)
          end
      end
  end.

(** [samePipelineNodes] in the render callback. *)
Definition samePipelineNodes (graphData : GraphData) (nodeSelection : option Node.t)
    : Exception + list Node.t :=
  match nodeSelectionPipeline nodeSelection with
  | inl e => inl e
  | inr name =>
      if truthy_string name
      then filter_same_pipeline (JsObject.values (nodes graphData)) (default "" name)
      else inr []
  end.

(** The pipeline name of the run of the latest materialization, when that
    run is a [PipelineRun]. *)
Definition latest_pipelineName (def : AssetDefinition) : option string :=
  match assetMaterializations def with
  | [] => None
  | latest :: _ =>
      match runOrError latest with
      | PipelineRun _ _ _ pipelineName _ => Some pipelineName
      | _ => None
      end
  end.

(** ** The composition on a store of mutable objects

    The tables that the code creates and then mutates in place ([nodes] and
    [downstream] in [buildGraphData]; [timestamps], [upstream] and
    [statuses] in [buildGraphComputeStatuses], the last one passed by
    reference to [findComputeStatusForId]) are objects of a store, named by
    locations; an object literal allocates a location that is not in use.
    Objects that are never changed after their creation (node records, the
    inner objects that the spread in [buildGraphData] creates anew on every
    update, and the arrays of [upstream], each created by one [[]] literal
    and kept under one key) are held by value. A computation that
    dereferences a location holding no object of the expected kind has no
    result. *)

Abbreviation loc := positive.

Inductive Object :=
  | ONodes (o : JsObject.t Node.t)
  | ODownstream (o : JsObject.t (JsObject.t string))
  | OTimestamps (m : gmap string Q)
  | OUpstream (m : gmap string (list string))
  | OStatuses (m : gmap string Status).

Abbreviation Store := (gmap loc Object).

Definition as_nodes (o : Object) : option (JsObject.t Node.t) :=
  match o with ONodes v => Some v | _ => None end.
Definition as_downstream (o : Object) : option (JsObject.t (JsObject.t string)) :=
  match o with ODownstream v => Some v | _ => None end.
Definition as_timestamps (o : Object) : option (gmap string Q) :=
  match o with OTimestamps v => Some v | _ => None end.
Definition as_upstream (o : Object) : option (gmap string (list string)) :=
  match o with OUpstream v => Some v | _ => None end.
Definition as_statuses (o : Object) : option (gmap string Status) :=
  match o with OStatuses v => Some v | _ => None end.

(** Computations that read and write the store and may have no result. *)
Definition Run (A : Type) : Type := Store → option (A * Store).

Definition ret {A} (a : A) : Run A := λ σ, Some (a, σ).

Definition bind {A B} (m : Run A) (k : A → Run B) : Run B :=
  λ σ, match m σ with
       | Some (a, σ') => k a σ'
       | None => None
       end.

Definition no_result {A} : Run A := λ _, None.

Declare Scope run_scope.
Delimit Scope run_scope with run.
Notation "'let*' x ':=' m 'in' k" := (bind m (λ x, k))
  (at level 10, x name, m at level 100, k at level 200) : run_scope.
Notation "m '>>' k" := (bind m (λ _, k))
  (at level 100, k at level 200, right associativity) : run_scope.

(** An object literal: a new object at a location not in use. *)
Definition new (o : Object) : Run loc :=
  λ σ, let l := fresh (dom σ) in Some (l, <[l := o]> σ).

(** Reading the table at [l], and replacing it by the table after an
    update. *)
Definition read {V} (view : Object → option V) (l : loc) : Run V :=
  λ σ, match σ !! l ≫= view with
       | Some v => Some (v, σ)
       | None => None
       end.

Definition modify {V} (view : Object → option V) (make : V → Object)
    (l : loc) (update : V → V) : Run unit :=
  λ σ, match σ !! l ≫= view with
       | Some v => Some (tt, <[l := make (update v)]> σ)
       | None => None
       end.

(** [xs.forEach(f)] and [for (const x of xs) f(x)]. *)
Fixpoint for_each {A} (xs : list A) (f : A → Run unit) : Run unit :=
  match xs with
  | [] => ret tt
  | x :: xs' => (f x >> for_each xs' f)%run
  end.

(** [xs.some(f)] *)
Fixpoint some_run {A} (xs : list A) (f : A → Run bool) : Run bool :=
  match xs with
  | [] => ret false
  | x :: xs' => (let* found := f x in if found then ret true else some_run xs' f)%run
  end.

(** [buildGraphData]; the result is the pair of the locations of [nodes]
    and [downstream]. *)
Definition buildGraphData_store (assetDefinitions : list AssetDefinition)
    : Run (loc * loc) :=
  (let* nodes := new (ONodes []) in
   let* downstream := new (ODownstream []) in
   for_each assetDefinitions
     (λ definition,
        let assetKeyJson := JSON_stringify (path (assetKey definition)) in
        modify as_nodes ONodes nodes
          (λ o, JsObject.set o assetKeyJson
                  {| Node.id := assetKeyJson;
                     Node.assetKey := assetKey definition;
                     Node.definition := definition |}) >>
        for_each (dependencies definition)
          (λ dependency,
             modify as_downstream ODownstream downstream
               (λ o, add_dependency assetKeyJson o dependency))) >>
   ret (nodes, downstream))%run.

(** [findComputeStatusForId], with the three tables passed by reference. *)
Fixpoint findComputeStatusForId_store (fuel : nat) (timestamps statuses upstream : loc)
    (id : string) : Run Status :=
  match fuel with
  | O => no_result
  | S fuel' =>
      (let* collected := read as_timestamps timestamps in
       let ts := collected !! id in
       let* predecessors := read as_upstream upstream in
       let upstreamIds := default [] (predecessors !! id) in
       let* memo := read as_statuses statuses in
       match memo !! id with
       | Some s => ret s
       | None =>
           let* newer :=
             some_run upstreamIds
               (λ uid,
                  let* collected := read as_timestamps timestamps in
                  ret (js_gt (collected !! uid) ts)) in
           let* stale :=
             if newer then ret false
             else
               some_run upstreamIds
                 (λ uid,
                    let* s := findComputeStatusForId_store fuel' timestamps statuses upstream uid in
                    ret (bool_decide (s ≠ good))) in
           let s := if newer then old else if stale then downstream_from_old else good in
           modify as_statuses OStatuses statuses (λ m, <[id := s]> m) >>
           let* memo := read as_statuses statuses in
           match memo !! id with
           | Some s => ret s
           | None => no_result
           end
       end)%run
  end.

(** [buildGraphComputeStatuses]; the result is the location of [statuses]. *)
Definition buildGraphComputeStatuses_store (fuel : nat) (graphData : loc * loc)
    : Run loc :=
  (let* timestamps := new (OTimestamps ∅) in
   let* nodes := read as_nodes graphData.1 in
   for_each (JsObject.values nodes)
     (λ node,
        modify as_timestamps OTimestamps timestamps
          (λ m, <[Node.id node := latest_startTime (Node.definition node)]> m)) >>
   let* upstream := new (OUpstream ∅) in
   let* downstream := read as_downstream graphData.2 in
   for_each (JsObject.keys downstream)
     (λ upstreamId,
        let* downstream := read as_downstream graphData.2 in
        for_each (JsObject.keys (default [] (JsObject.get downstream upstreamId)))
          (λ downstreamId,
             modify as_upstream OUpstream upstream
               (λ m, <[downstreamId := default [] (m !! downstreamId) ++ [upstreamId]]> m))) >>
   let* statuses := new (OStatuses ∅) in
   let* nodes := read as_nodes graphData.1 in
   for_each (JsObject.values nodes)
     (λ asset,
        if Nat.eqb (length (assetMaterializations (Node.definition asset))) 0
        then modify as_statuses OStatuses statuses (λ m, <[Node.id asset := none]> m)
        else ret tt) >>
   let* nodes := read as_nodes graphData.1 in
   for_each (JsObject.values nodes)
     (λ asset,
        let id := JSON_stringify (path (Node.assetKey asset)) in
        let* s := findComputeStatusForId_store fuel timestamps statuses upstream id in
        modify as_statuses OStatuses statuses (λ m, <[id := s]> m)) >>
   ret statuses)%run.

(** Build followed by the status computation, on the store. *)
Definition build_then_computeStatuses (fuel : nat) (assetDefinitions : list AssetDefinition)
    : Run loc :=
  (let* graphData := buildGraphData_store assetDefinitions in
   buildGraphComputeStatuses_store fuel graphData)%run.

(** The store holds the collected tables at [timestamps] and [upstream] and
    the memo table at [statuses]. *)
Definition holds (timestamps statuses upstream : loc) (ts : gmap string Q)
    (up : gmap string (list string)) (σ : Store) (st : gmap string Status) : Prop :=
  σ !! timestamps = Some (OTimestamps ts) ∧ σ !! upstream = Some (OUpstream up) ∧
  σ !! statuses = Some (OStatuses st).

(** * Properties *)

(** ** Ordered dictionaries *)

Section js_object.
Context {V : Type}.
Implicit Types (o : JsObject.t V) (k : string) (v : V).

Lemma get_set_eq o k v : JsObject.get (JsObject.set o k v) k = Some v.
Proof.
  induction o as [|[k' v'] o IH]; simpl.
  - by rewrite String.eqb_refl.
  - destruct (String.eqb_spec k' k) as [->|Hne]; simpl.
    + by rewrite String.eqb_refl.
    + by destruct (String.eqb_spec k' k).
Qed.

Lemma get_set_ne o k k' v :
  k ≠ k' → JsObject.get (JsObject.set o k v) k' = JsObject.get o k'.
Proof.
  intros Hne. induction o as [|[k0 v0] o IH]; simpl.
  - by destruct (String.eqb_spec k k').
  - destruct (String.eqb_spec k0 k) as [->|Hne0]; simpl.
    + by destruct (String.eqb_spec k k').
    + by rewrite IH.
Qed.

Lemma get_Some_elem_of o k v : JsObject.get o k = Some v → (k, v) ∈ o.
Proof.
  induction o as [|[k0 v0] o IH]; simpl; [done|].
  destruct (String.eqb_spec k0 k) as [->|Hne].
  - intros [= ->]. left.
  - intros Hget. right. by apply IH.
Qed.

Lemma get_None o k : JsObject.get o k = None ↔ k ∉ JsObject.keys o.
Proof.
  induction o as [|[k0 v0] o IH]; simpl.
  - split; [intros _; apply not_elem_of_nil|done].
  - rewrite not_elem_of_cons.
    destruct (String.eqb_spec k0 k) as [->|Hne]; [naive_solver|].
    rewrite IH. naive_solver.
Qed.

Lemma get_is_Some o k : is_Some (JsObject.get o k) ↔ k ∈ JsObject.keys o.
Proof.
  destruct (JsObject.get o k) eqn:Hget.
  - split; [intros _|by eauto].
    apply get_Some_elem_of in Hget.
    unfold JsObject.keys. apply list_elem_of_fmap. by exists (k, v).
  - apply get_None in Hget. split; [by intros [??]|done].
Qed.

Lemma elem_of_get o k v :
  NoDup (JsObject.keys o) → (k, v) ∈ o → JsObject.get o k = Some v.
Proof.
  induction o as [|[k0 v0] o IH]; simpl; [by intros _ ?%elem_of_nil|].
  rewrite NoDup_cons. intros [Hk0 Hnd] [[= -> ->]|Hin]%elem_of_cons.
  - by rewrite String.eqb_refl.
  - destruct (String.eqb_spec k0 k) as [->|Hne]; [|by apply IH].
    destruct Hk0. unfold JsObject.keys. apply list_elem_of_fmap. by exists (k, v).
Qed.

Lemma keys_set o k v :
  JsObject.keys (JsObject.set o k v) =
    if bool_decide (k ∈ JsObject.keys o) then JsObject.keys o
    else JsObject.keys o ++ [k].
Proof.
  induction o as [|[k0 v0] o IH]; simpl; [done|].
  destruct (String.eqb_spec k0 k) as [->|Hne]; simpl.
  - rewrite bool_decide_eq_true_2; [done|left].
  - rewrite IH. case_bool_decide as Hin.
    + rewrite bool_decide_eq_true_2; [done|by right].
    + rewrite bool_decide_eq_false_2; [done|].
      rewrite not_elem_of_cons. naive_solver.
Qed.

Lemma elem_of_keys_set o k v k' :
  k' ∈ JsObject.keys (JsObject.set o k v) ↔ k' = k ∨ k' ∈ JsObject.keys o.
Proof.
  rewrite keys_set. case_bool_decide as Hin.
  - naive_solver.
  - rewrite elem_of_app, list_elem_of_singleton. naive_solver.
Qed.

Lemma NoDup_keys_set o k v :
  NoDup (JsObject.keys o) → NoDup (JsObject.keys (JsObject.set o k v)).
Proof.
  intros Hnd. rewrite keys_set. case_bool_decide as Hin; [done|].
  apply NoDup_app. split_and!; [done| |apply NoDup_singleton].
  intros x Hx ->%list_elem_of_singleton. done.
Qed.

Lemma elem_of_set o k v k' v' :
  (k', v') ∈ JsObject.set o k v → (k' = k ∧ v' = v) ∨ (k', v') ∈ o.
Proof.
  induction o as [|[k0 v0] o IH]; simpl.
  - intros [= -> ->]%list_elem_of_singleton. by left.
  - destruct (String.eqb_spec k0 k) as [->|Hne].
    + intros [[= -> ->]|Hin]%elem_of_cons; [by left|].
      right. by right.
    + intros [[= -> ->]|Hin]%elem_of_cons; [right; left|].
      destruct (IH Hin) as [?|?]; [by left|]. right. by right.
Qed.
End js_object.

(** ** The graph built by [buildGraphData] *)

Section build.
Implicit Types (defs : list AssetDefinition) (g acc : GraphData).

Lemma fold_add_dependency d deps ds :
  fold_left (add_dependency d) deps ds =
  fold_left add_edge
    (map (λ dependency,
            (JSON_stringify (path (UpstreamAsset.assetKey (upstreamAsset dependency))),
             d, inputName dependency)) deps) ds.
Proof. revert ds. induction deps as [|dependency deps IH]; intros ds; simpl; [done|]. by rewrite IH. Qed.

Lemma downstream_fold_add_definition defs acc :
  downstream (fold_left add_definition defs acc) =
  fold_left add_edge (declared_edges defs) (downstream acc).
Proof.
  revert acc. induction defs as [|def defs IH]; intros acc; simpl; [done|].
  by rewrite IH, fold_left_app; simpl; rewrite fold_add_dependency.
Qed.

Lemma get_add_edge ds u d input u' d' :
  JsObject.get (add_edge ds (u, d, input)) u' ≫= (λ o, JsObject.get o d') =
  if bool_decide (u = u' ∧ d = d') then Some input
  else JsObject.get ds u' ≫= (λ o, JsObject.get o d').
Proof.
  unfold add_edge. destruct (decide (u = u')) as [->|Hu].
  - rewrite get_set_eq; simpl. destruct (decide (d = d')) as [->|Hd].
    + rewrite get_set_eq. by rewrite bool_decide_eq_true_2.
    + rewrite get_set_ne by done. rewrite bool_decide_eq_false_2 by naive_solver.
      by destruct (JsObject.get ds u').
  - rewrite get_set_ne by done. by rewrite bool_decide_eq_false_2 by naive_solver.
Qed.

Lemma get_fold_add_edge edges ds u d :
  JsObject.get (fold_left add_edge edges ds) u ≫= (λ o, JsObject.get o d) =
  match last_input edges u d with
  | Some input => Some input
  | None => JsObject.get ds u ≫= (λ o, JsObject.get o d)
  end.
Proof.
  revert ds. induction edges as [|[[u' d'] input] edges IH]; intros ds; [done|].
  cbn [fold_left last_input]. rewrite IH, get_add_edge.
  destruct (last_input edges u d); [done|]. by case_bool_decide.
Qed.

Lemma keys_get_add_edge ds u d input u' :
  JsObject.keys (default [] (JsObject.get (add_edge ds (u, d, input)) u')) =
  if bool_decide (u = u')
  then JsObject.keys (JsObject.set (default [] (JsObject.get ds u')) d input)
  else JsObject.keys (default [] (JsObject.get ds u')).
Proof.
  unfold add_edge. case_bool_decide as Hu.
  - subst u'. by rewrite get_set_eq.
  - by rewrite get_set_ne.
Qed.

Lemma downstream_ok_mono K K' ds :
  K ⊆ K' → downstream_ok K ds → downstream_ok K' ds.
Proof. intros HK [Hnd Hin]. split; [done|]. intros u. split; [apply Hin|]. intros d Hd. by apply HK, (Hin u). Qed.

Lemma downstream_ok_add_edge K ds u d input :
  d ∈ K → downstream_ok K ds → downstream_ok K (add_edge ds (u, d, input)).
Proof.
  intros Hd [Hnd Hin]. split; [by apply NoDup_keys_set|].
  intros u'. rewrite keys_get_add_edge. case_bool_decide; [|apply Hin].
  split; [apply NoDup_keys_set, Hin|].
  intros d' [->|Hd']%elem_of_keys_set; [done|]. by apply (Hin u').
Qed.

Lemma downstream_ok_fold K edges ds :
  (∀ e, e ∈ edges → e.1.2 ∈ K) → downstream_ok K ds →
  downstream_ok K (fold_left add_edge edges ds).
Proof.
  revert ds. induction edges as [|[[u d] input] edges IH]; intros ds He Hok; [done|].
  simpl. apply IH.
  - intros e ?. apply He. by right.
  - apply downstream_ok_add_edge; [|done]. apply (He (u, d, input)). left.
Qed.

Lemma build_inv_add_definition g def :
  build_inv g → build_inv (add_definition g def).
Proof.
  intros [[Hnd Hid] Hds]. split; [split|]; simpl.
  - by apply NoDup_keys_set.
  - intros k n [[-> ->]|Hin]%elem_of_set; [done|by apply Hid].
  - rewrite fold_add_dependency. apply downstream_ok_fold.
    + intros e (dependency & -> & _)%list_elem_of_fmap; simpl.
      apply elem_of_keys_set. by left.
    + eapply downstream_ok_mono; [|done].
      intros k Hk. apply elem_of_keys_set. by right.
Qed.

Lemma build_inv_fold defs g :
  build_inv g → build_inv (fold_left add_definition defs g).
Proof.
  revert g. induction defs as [|def defs IH]; intros g Hg; [done|].
  simpl. by apply IH, build_inv_add_definition.
Qed.

Lemma buildGraphData_inv defs : build_inv (buildGraphData defs).
Proof.
  apply build_inv_fold. split; [split|split]; simpl.
  - apply NoDup_nil_2.
  - by intros k n ?%elem_of_nil.
  - apply NoDup_nil_2.
  - intros u. split; [apply NoDup_nil_2|]. by intros d ?%elem_of_nil.
Qed.

Lemma buildGraphData_wf_nodes defs : wf_nodes (buildGraphData defs).
Proof. apply buildGraphData_inv. Qed.

Lemma buildGraphData_targets defs : targets_are_nodes (buildGraphData defs).
Proof.
  intros u d Hed. destruct (buildGraphData_inv defs) as [_ [_ Hin]].
  by apply (Hin u).
Qed.
End build.

(** ** [some] with a stateful callback *)

Section some_st.
Context {A S : Type}.
Implicit Types (f : S → A → option (bool * S)) (xs : list A) (s : S).

(** An invariant [I] and a preorder [le] on states carried through the
    visit; [hit] holds of the element that answered [true], [miss] of every
    element that answered [false]. *)
Lemma some_st_inv f (I : S → Prop) (le : S → S → Prop) `{!PreOrder le}
    (hit miss : S → A → Prop) xs s b s' :
  (∀ s x b s', x ∈ xs → I s → f s x = Some (b, s') →
     I s' ∧ le s s' ∧ if b then hit s' x else miss s' x) →
  (∀ s s' x, le s s' → miss s x → miss s' x) →
  I s → some_st f xs s = Some (b, s') →
  I s' ∧ le s s' ∧
  if b then ∃ x, x ∈ xs ∧ hit s' x else ∀ x, x ∈ xs → miss s' x.
Proof.
  intros Hf Hmono. revert s.
  induction xs as [|x xs IH]; intros s HI; simpl.
  - intros [= <- <-]. split_and!; [done..|]. by intros x ?%elem_of_nil.
  - destruct (f s x) as [[[] s1]|] eqn:Hfx; [| |done].
    + intros [= <- <-].
      destruct (Hf s x true s1) as (? & ? & ?); [left|done..|].
      split_and!; [done..|]. exists x. split; [left|done].
    + intros Hrest.
      destruct (Hf s x false s1) as (HI1 & Hle1 & Hmiss); [left|done..|].
      destruct IH with (s := s1) as (HI' & Hle' & Hres); [|done..|].
      { intros s2 y b2 s3 Hy. apply Hf. by right. }
      split_and!; [done|by etrans|].
      destruct b.
      * destruct Hres as (y & Hy & Hhit). exists y. split; [by right|done].
      * intros y [->|Hy]%elem_of_cons; [by eapply Hmono|by apply Hres].
Qed.

Lemma some_st_is_Some f (I : S → Prop) xs s :
  (∀ s x, x ∈ xs → I s → ∃ b s', f s x = Some (b, s') ∧ I s') →
  I s → ∃ b s', some_st f xs s = Some (b, s') ∧ I s'.
Proof.
  intros Hf. revert s. induction xs as [|x xs IH]; intros s HI; simpl.
  - by exists false, s.
  - destruct (Hf s x) as (b & s1 & -> & HI1); [left|done|].
    destruct b; [by exists true, s1|].
    apply IH; [|done]. intros s2 y Hy. apply Hf. by right.
Qed.

Lemma some_st_ext_Some f f' xs s r :
  (∀ s x r, x ∈ xs → f s x = Some r → f' s x = Some r) →
  some_st f xs s = Some r → some_st f' xs s = Some r.
Proof.
  intros Hf. revert s. induction xs as [|x xs IH]; intros s; simpl; [done|].
  destruct (f s x) as [[b s1]|] eqn:Hfx; [|done].
  rewrite (Hf s x (b, s1)); [|left|done].
  destruct b; [done|]. apply IH. intros s2 y r2 Hy. apply Hf. by right.
Qed.
End some_st.

(** ** Acyclicity *)

Lemma edge_elem_of g u d :
  edge g u d → ∃ ds, (u, ds) ∈ downstream g ∧ d ∈ JsObject.keys ds.
Proof.
  unfold edge, downstreamIds_of.
  destruct (JsObject.get (downstream g) u) as [ds|] eqn:Hget; simpl.
  - intros Hd. exists ds. split; [by apply get_Some_elem_of|done].
  - by intros ?%elem_of_nil.
Qed.

Lemma ranked_edge rank g u d : ranked rank g = true → edge g u d → rank u < rank d.
Proof.
  unfold ranked. rewrite forallb_forall.
  intros Hall (ds & Hin & Hd)%edge_elem_of.
  apply list_elem_of_In, Hall in Hin. simpl in Hin.
  rewrite forallb_forall in Hin. apply list_elem_of_In, Hin in Hd.
  by apply Nat.ltb_lt.
Qed.

Lemma ranked_acyclic rank g : ranked rank g = true → acyclic g.
Proof.
  intros Hrank x Hx.
  assert (∀ a b, tc (edge g) a b → rank a < rank b) as Hlt.
  { induction 1 as [a b Hab|a b c Hab _ IH].
    - by eapply ranked_edge.
    - etrans; [by eapply ranked_edge|done]. }
  apply Hlt in Hx. lia.
Qed.

(** ** Cycle detection *)

Section cycle_detection.
Variable g : GraphData.
Implicit Types (stack nodes : list string) (node : string) (fuel : nat).

Lemma search_on_stack fuel stack nodes node :
  node ∈ stack → search (S fuel) g stack nodes node = Some (true, nodes).
Proof. intros Hin. simpl. by rewrite bool_decide_eq_true_2. Qed.

Lemma search_already_visited fuel stack nodes node :
  node ∉ stack → node ∉ nodes →
  search (S fuel) g stack nodes node = Some (false, nodes).
Proof. intros Hs Hn. simpl. by rewrite !bool_decide_eq_false_2. Qed.

Lemma search_S fuel stack nodes node r :
  search fuel g stack nodes node = Some r →
  search (S fuel) g stack nodes node = Some r.
Proof.
  revert stack nodes node r.
  induction fuel as [|fuel IH]; intros stack nodes node r; [done|].
  cbn [search]. repeat case_bool_decide; try done.
  apply some_st_ext_Some. intros s x r' _. apply IH.
Qed.

Lemma search_mono fuel fuel' stack nodes node r :
  fuel ≤ fuel' →
  search fuel g stack nodes node = Some r →
  search fuel' g stack nodes node = Some r.
Proof. induction 1; [done|]. intros. by apply search_S, IHle. Qed.

(** A call deletes at least the node it is called on when that node is
    still in the set and not on the stack, and [length nodes + 1] units of
    fuel are always enough. *)
Lemma search_terminates fuel stack nodes node :
  length nodes < fuel →
  ∃ b nodes', search fuel g stack nodes node = Some (b, nodes') ∧
    length nodes' ≤ length nodes ∧
    (node ∈ nodes → node ∉ stack → length nodes' < length nodes).
Proof.
  revert stack nodes node.
  induction fuel as [|fuel IH]; intros stack nodes node Hfuel; [lia|].
  cbn [search]. case_bool_decide as Hstack.
  { exists true, nodes. split_and!; [done..|]. by intros _ ?. }
  case_bool_decide as Hnodes; [|by exists false, nodes].
  pose proof (length_filter_lt (λ n, n ≠ node) nodes node Hnodes) as Hlt.
  destruct (some_st_is_Some
    (λ nodes nextNode, search fuel g (stack ++ [node]) nodes nextNode)
    (λ s, length s < length nodes)
    (downstreamIds_of g node) (filter (λ n, n ≠ node) nodes))
    as (b & nodes' & Hsome & Hlen).
  - intros s x _ Hs. destruct (IH (stack ++ [node]) s x) as (b & s' & ? & ? & _); [lia|].
    exists b, s'. split; [done|lia].
  - apply Hlt. by intros ?.
  - exists b, nodes'. split_and!; [done|lia|by intros _ _].
Qed.

(** On an acyclic graph a call whose stack reaches its node along edges
    never answers [true]. *)
Lemma search_acyclic fuel stack nodes node b nodes' :
  acyclic g →
  (∀ x, x ∈ stack → tc (edge g) x node) →
  search fuel g stack nodes node = Some (b, nodes') → b = false.
Proof.
  intros Hacyc. revert stack nodes node b nodes'.
  induction fuel as [|fuel IH]; intros stack nodes node b nodes' Hstack; [done|].
  cbn [search]. case_bool_decide as Hin.
  { destruct (Hacyc node). by apply Hstack. }
  case_bool_decide as Hnodes; [|by intros [= <- <-]].
  intros Hsome.
  assert (PreOrder (λ _ _ : list string, True)) as Hpre by (by split).
  apply (some_st_inv _ (λ _, True) (λ _ _, True) (λ _ _, False) (λ _ _, True))
    in Hsome as (_ & _ & Hres); [| |done..].
  - destruct b; [|done]. by destruct Hres as (? & ? & []).
  - intros s x b' s' Hx _ Hcall. split_and!; [done..|].
    apply IH in Hcall as ->; [done|].
    intros y [Hy| ->%list_elem_of_singleton]%elem_of_app.
    + eapply tc_r; [by apply Hstack|done].
    + by apply tc_once.
Qed.

Lemma while_nodes_S fuel nodes hasCycles r :
  while_nodes fuel g nodes hasCycles = Some r →
  while_nodes (S fuel) g nodes hasCycles = Some r.
Proof.
  revert nodes hasCycles.
  induction fuel as [|fuel IH]; intros nodes hasCycles; [done|].
  cbn [while_nodes]. destruct nodes as [|first rest]; [done|].
  destruct hasCycles; [apply IH|].
  destruct (search fuel g [] (first :: rest) first) as [[found nodes']|] eqn:Hs; [|done].
  rewrite (search_S _ _ _ _ _ Hs). apply IH.
Qed.

Lemma while_nodes_mono fuel fuel' nodes hasCycles r :
  fuel ≤ fuel' →
  while_nodes fuel g nodes hasCycles = Some r →
  while_nodes fuel' g nodes hasCycles = Some r.
Proof. induction 1; [done|]. intros. by apply while_nodes_S, IHle. Qed.

(** Once [hasCycles] is [true] and a node is left in the set, no iteration
    changes the state: the loop does not exit. *)
Lemma while_nodes_stuck fuel nodes :
  nodes ≠ [] → while_nodes fuel g nodes true = None.
Proof.
  intros Hne. induction fuel as [|fuel IH]; [done|].
  simpl. by destruct nodes.
Qed.

(** If the traversal started by the first iteration finds a cycle and leaves
    a node behind, the loop returns for no fuel. *)
Lemma while_nodes_cycle_with_leftover fuel0 first rest left fuel :
  search fuel0 g [] (first :: rest) first = Some (true, left) →
  left ≠ [] →
  while_nodes fuel g (first :: rest) false = None.
Proof.
  intros Hfound Hleft. destruct fuel as [|fuel]; [done|]. cbn [while_nodes].
  destruct (search fuel g [] (first :: rest) first) as [[found nodes']|] eqn:Hs; [|done].
  apply (search_mono fuel (fuel `max` fuel0)) in Hs; [|lia].
  apply (search_mono fuel0 (fuel `max` fuel0)) in Hfound; [|lia].
  rewrite Hs in Hfound. injection Hfound as -> ->.
  by apply while_nodes_stuck.
Qed.

Lemma while_nodes_acyclic fuel nodes :
  acyclic g → length nodes + 1 < fuel →
  while_nodes fuel g nodes false = Some false.
Proof.
  intros Hacyc. revert nodes.
  induction fuel as [|fuel IH]; intros nodes Hfuel; [lia|].
  cbn [while_nodes]. destruct nodes as [|first rest]; [done|].
  destruct (search_terminates fuel [] (first :: rest) first)
    as (b & nodes' & Hs & _ & Hlt); [lia|].
  rewrite Hs.
  apply search_acyclic in Hs as ->; [|done|by intros x ?%elem_of_nil].
  apply IH. specialize (Hlt ltac:(left) ltac:(apply not_elem_of_nil)). lia.
Qed.

Lemma graphHasCycles_mono fuel fuel' r :
  fuel ≤ fuel' → graphHasCycles fuel g = Some r → graphHasCycles fuel' g = Some r.
Proof. apply while_nodes_mono. Qed.

Lemma graphHasCycles_acyclic fuel :
  acyclic g → length (nodes g) + 1 < fuel → graphHasCycles fuel g = Some false.
Proof.
  intros Hacyc Hfuel. apply while_nodes_acyclic; [done|].
  unfold JsObject.keys. by rewrite length_map.
Qed.
End cycle_detection.

(** ** Staleness propagation *)

Section propagation.
Variable timestamps : gmap string Q.
Variable upstream : gmap string (list string).
Implicit Types (st statuses initial : gmap string Status) (id : string) (s : Status).

Local Abbreviation find :=
  (λ fuel st id, findComputeStatusForId fuel timestamps st upstream id).
Local Abbreviation R := (upstream_of upstream).

Lemma find_memoized fuel st id s :
  st !! id = Some s → find (S fuel) st id = Some (s, st).
Proof. intros Hs. simpl. by rewrite Hs. Qed.

Global Instance grows_within_preorder P : PreOrder (grows_within P).
Proof.
  split.
  - intros st. split; [done|]. intros k ?. by left.
  - intros st1 st2 st3 [Hsub12 Hnew12] [Hsub23 Hnew23]. split; [by etrans|].
    intros k Hk. destruct (Hnew23 k Hk) as [Hk2|?]; [|by right]. by apply Hnew12.
Qed.

Lemma status_rule_mono st st' id s :
  st ⊆ st' → status_rule timestamps upstream st id s →
  status_rule timestamps upstream st' id s.
Proof.
  intros Hsub. unfold status_rule. destruct (has_newer_upstream _ _ _); [done|].
  intros [(-> & u & s' & Hu & Hs' & Hne)|(-> & Hall)].
  - left. split; [done|]. exists u, s'. split_and!; [done| |done].
    by eapply lookup_weaken.
  - right. split; [done|]. intros u Hu. eapply lookup_weaken; [by apply Hall|done].
Qed.

Lemma statuses_ok_insert initial st id s :
  st !! id = None →
  statuses_ok timestamps upstream initial st →
  status_rule timestamps upstream (<[id := s]> st) id s →
  statuses_ok timestamps upstream initial (<[id := s]> st).
Proof.
  intros Hfresh Hok Hrule k sk. rewrite lookup_insert. case_decide as Hk.
  - subst k. intros [= <-]. by right.
  - intros Hsk. destruct (Hok k sk Hsk) as [?|Hr]; [by left|]. right.
    eapply status_rule_mono; [|done]. by apply insert_subseteq.
Qed.

(** What a returning call guarantees, on a graph whose upstream relation
    has no cycle. *)
Lemma find_spec initial fuel st id s st' :
  (∀ x, ¬ tc R x x) →
  statuses_ok timestamps upstream initial st →
  find fuel st id = Some (s, st') →
  statuses_ok timestamps upstream initial st' ∧
  grows_within (rtc R id) st st' ∧ st' !! id = Some s.
Proof.
  intros Hirr. revert st id s st'.
  induction fuel as [|fuel IH]; intros st id s st' Hok; [done|].
  cbn [findComputeStatusForId].
  destruct (st !! id) as [s0|] eqn:Hid.
  { intros [= <- <-]. done. }
  destruct (existsb _ _) eqn:Hnewer.
  { intros [= <- <-]. split_and!.
    - apply statuses_ok_insert; [done..|].
      unfold status_rule, has_newer_upstream. by rewrite Hnewer.
    - split; [by apply insert_subseteq|].
      intros k. rewrite lookup_insert. case_decide as Hk; [subst; by right|by left].
    - apply lookup_insert_eq. }
  destruct (some_st _ _ _) as [[b st1]|] eqn:Hsome; [|done].
  apply (some_st_inv _ (statuses_ok timestamps upstream initial)
           (grows_within (λ k, ∃ u, R id u ∧ rtc R u k))
           (λ st u, ∃ s', st !! u = Some s' ∧ s' ≠ good)
           (λ st u, st !! u = Some good))
    in Hsome as (Hok1 & [Hsub1 Hnew1] & Hres); [| |by intros ??? [? _] ?; eapply lookup_weaken|done].
  2:{ intros st2 u b2 st3 Hu Hok2 Hcall.
      destruct (findComputeStatusForId fuel timestamps st2 upstream u)
        as [[su st4]|] eqn:Hrec; [|done].
      injection Hcall as <- <-.
      apply IH in Hrec as (Hok4 & [Hsub4 Hnew4] & Hsu); [|done].
      split_and!; [done| |].
      - split; [done|]. intros k Hk. destruct (Hnew4 k Hk); [by left|].
        right. by exists u.
      - case_bool_decide as Hgood; [by exists su|].
        destruct (decide (su = good)) as [->|]; done. }
  assert (st1 !! id = None) as Hid1.
  { apply eq_None_not_Some. intros [Hsome|(u & Hu & Hreach)]%Hnew1.
    - rewrite Hid in Hsome. by destruct Hsome.
    - apply (Hirr id). eapply tc_rtc_r; [by apply tc_once|done]. }
  assert (grows_within (rtc R id) st1 (<[id := s]> st1)) as Hgrow.
  { split; [by apply insert_subseteq|].
    intros k. rewrite lookup_insert. case_decide as Hk; [subst; by right|by left]. }
  assert (grows_within (rtc R id) st st1) as Hgrow1.
  { split; [done|]. intros k Hk. destruct (Hnew1 k Hk) as [?|(u & Hu & Hreach)]; [by left|].
    right. by eapply rtc_l. }
  assert (∀ s0, (if b then s0 = downstream_from_old else s0 = good) →
            statuses_ok timestamps upstream initial (<[id := s0]> st1)) as Hins.
  { intros s0 Hs0. apply statuses_ok_insert; [done..|].
    unfold status_rule, has_newer_upstream. rewrite Hnewer.
    destruct b; subst s0.
    - left. split; [done|]. destruct Hres as (u & Hu & s' & Hs' & Hne).
      exists u, s'. split_and!; [done| |done].
      eapply lookup_weaken; [done|by apply insert_subseteq].
    - right. split; [done|]. intros u Hu.
      eapply lookup_weaken; [by apply Hres|by apply insert_subseteq]. }
  destruct b; intros [= <- <-].
  - split_and!; [by apply Hins| |apply lookup_insert_eq].
    etrans; [apply Hgrow1|apply Hgrow].
  - split_and!; [by apply Hins| |apply lookup_insert_eq].
    etrans; [apply Hgrow1|apply Hgrow].
Qed.

Lemma find_unfold fuel st id :
  find (S fuel) st id =
  match st !! id with
  | Some s => Some (s, st)
  | None =>
      if has_newer_upstream timestamps upstream id
      then Some (old, <[id := old]> st)
      else
        match
          some_st
            (λ statuses uid,
               match find fuel statuses uid with
               | None => None
               | Some (s, statuses') => Some (bool_decide (s ≠ good), statuses')
               end)
            (default [] (upstream !! id)) st
        with
        | None => None
        | Some (true, st') => Some (downstream_from_old, <[id := downstream_from_old]> st')
        | Some (false, st') => Some (good, <[id := good]> st')
        end
  end.
Proof. reflexivity. Qed.

(** More fuel does not change a result. *)
Lemma find_S fuel st id r :
  find fuel st id = Some r → find (S fuel) st id = Some r.
Proof.
  revert st id r. induction fuel as [|fuel IH]; intros st id r; [done|].
  rewrite (find_unfold fuel), (find_unfold (S fuel)).
  destruct (st !! id); [done|]. destruct (has_newer_upstream _ _ _); [done|].
  destruct (some_st _ _ _) as [r1|] eqn:Hsome; [|done].
  eapply some_st_ext_Some in Hsome as ->; [done|].
  intros st2 u r2 _.
  destruct (findComputeStatusForId fuel timestamps st2 upstream u) as [r3|] eqn:Hrec; [|done].
  by rewrite (IH _ _ _ Hrec).
Qed.

Lemma find_mono fuel fuel' st id r :
  fuel ≤ fuel' → find fuel st id = Some r → find fuel' st id = Some r.
Proof. induction 1; [done|]. intros. by apply find_S, IHle. Qed.

Lemma compute_each_mono fuel fuel' assets st m :
  fuel ≤ fuel' →
  compute_each fuel timestamps upstream assets st = Some m →
  compute_each fuel' timestamps upstream assets st = Some m.
Proof.
  intros Hle. revert st. induction assets as [|a assets IH]; intros st; simpl; [done|].
  destruct (findComputeStatusForId fuel _ _ _ _) as [[s st']|] eqn:Hfind; [|done].
  rewrite (find_mono _ _ _ _ _ Hle Hfind). apply IH.
Qed.

(** Termination: a call returns once the fuel exceeds a bound that depends
    on the id alone, provided no infinite upstream path starts at the id. *)
Lemma find_terminates id :
  sn R id → ∃ N, ∀ fuel st, N ≤ fuel → is_Some (find fuel st id).
Proof.
  induction 1 as [id _ IH].
  assert (∃ N, ∀ u, u ∈ default [] (upstream !! id) →
            ∀ fuel st, N ≤ fuel → is_Some (find fuel st u)) as [N HN].
  { assert (∀ u, u ∈ default [] (upstream !! id) →
              ∃ N, ∀ fuel st, N ≤ fuel → is_Some (find fuel st u)) as Hall
      by (intros u Hu; by apply IH).
    induction (default [] (upstream !! id)) as [|u l IHl].
    - exists 0. by intros u ?%elem_of_nil.
    - destruct (Hall u) as [N1 HN1]; [left|].
      destruct IHl as [N2 HN2]; [intros; apply Hall; by right|].
      exists (N1 `max` N2). intros u' [->|Hu']%elem_of_cons fuel st Hfuel.
      + apply HN1. lia.
      + apply HN2; [done|lia]. }
  exists (S N). intros [|fuel] st Hfuel; [lia|].
  cbn [findComputeStatusForId].
  destruct (st !! id); [done|]. destruct (existsb _ _); [done|].
  edestruct (some_st_is_Some
    (λ statuses uid,
       match findComputeStatusForId fuel timestamps statuses upstream uid with
       | Some (s, statuses') => Some (bool_decide (s ≠ good), statuses')
       | None => None
       end) (λ _, True) (default [] (upstream !! id)) st)
    as (b & st1 & -> & _); [|done|by destruct b].
  intros st2 u Hu _. destruct (HN u Hu fuel st2) as [[su st3] ->]; [lia|]. eauto.
Qed.

Lemma compute_each_terminates assets :
  (∀ id, sn R id) →
  ∃ N, ∀ fuel st, N ≤ fuel →
    is_Some (compute_each fuel timestamps upstream assets st).
Proof.
  intros Hsn. induction assets as [|a assets [N2 HN2]].
  - exists 0. intros. by eexists.
  - destruct (find_terminates (JSON_stringify (path (Node.assetKey a)))) as [N1 HN1]; [done|].
    exists (N1 `max` N2). intros fuel st Hfuel. simpl.
    destruct (HN1 fuel st) as [[s st'] ->]; [lia|]. apply HN2. lia.
Qed.

Lemma compute_each_spec initial fuel assets st m :
  (∀ x, ¬ tc R x x) →
  statuses_ok timestamps upstream initial st →
  compute_each fuel timestamps upstream assets st = Some m →
  statuses_ok timestamps upstream initial m ∧ st ⊆ m ∧
  ∀ a, a ∈ assets → is_Some (m !! JSON_stringify (path (Node.assetKey a))).
Proof.
  intros Hirr. revert st. induction assets as [|a assets IH]; intros st Hok; simpl.
  - intros [= <-]. split_and!; [done..|]. by intros a ?%elem_of_nil.
  - destruct (findComputeStatusForId fuel _ _ _ _) as [[s st']|] eqn:Hfind; [|done].
    apply (find_spec initial) in Hfind as (Hok' & [Hsub _] & Hs); [|done..].
    rewrite (insert_id _ _ _ Hs). intros Hrest.
    apply IH in Hrest as (Hokm & Hsubm & Hall); [|done].
    split_and!; [done|by etrans|].
    intros a' [->|Ha']%elem_of_cons; [|by apply Hall].
    exists s. by eapply lookup_weaken.
Qed.
End propagation.

(** ** The maps collected by [buildGraphComputeStatuses] *)

Section collected.
Variable g : GraphData.

Lemma edge_source u d : edge g u d → u ∈ JsObject.keys (downstream g).
Proof.
  intros (ds & Hin & _)%edge_elem_of.
  unfold JsObject.keys. apply list_elem_of_fmap. by exists (u, ds).
Qed.

Lemma collect_upstream_inner u ds (up : gmap string (list string)) d u' :
  u' ∈ default []
    (fold_left
       (λ (upstream : gmap string (list string)) downstreamId,
          <[downstreamId := default [] (upstream !! downstreamId) ++ [u]]> upstream)
       ds up !! d) ↔
  u' ∈ default [] (up !! d) ∨ (u' = u ∧ d ∈ ds).
Proof.
  revert up. induction ds as [|d0 ds IH]; intros up; simpl.
  - rewrite elem_of_nil. naive_solver.
  - rewrite IH, lookup_insert, elem_of_cons. case_decide as Hd; simpl.
    + subst d0. rewrite elem_of_app, list_elem_of_singleton. naive_solver.
    + naive_solver.
Qed.

Lemma collect_upstream_outer us (up : gmap string (list string)) d u :
  u ∈ default []
    (fold_left
       (λ (upstream : gmap string (list string)) upstreamId,
          fold_left
            (λ (upstream : gmap string (list string)) downstreamId,
               <[downstreamId := default [] (upstream !! downstreamId) ++ [upstreamId]]> upstream)
            (downstreamIds_of g upstreamId) upstream)
       us up !! d) ↔
  u ∈ default [] (up !! d) ∨ (u ∈ us ∧ edge g u d).
Proof.
  revert up. induction us as [|u0 us IH]; intros up; simpl.
  - rewrite elem_of_nil. naive_solver.
  - rewrite IH, collect_upstream_inner, elem_of_cons. unfold edge. naive_solver.
Qed.

(** Step 2 inverts the adjacency. *)
Lemma upstream_of_collect d u :
  upstream_of (collect_upstream g) d u ↔ edge g u d.
Proof.
  unfold upstream_of, collect_upstream. rewrite collect_upstream_outer.
  rewrite lookup_empty; simpl. rewrite elem_of_nil.
  split; [naive_solver|]. intros Hed. right. split; [by eapply edge_source|done].
Qed.

Lemma tc_upstream_edge x y :
  tc (upstream_of (collect_upstream g)) x y → tc (edge g) y x.
Proof.
  induction 1 as [x y Hxy|x y z Hxy _ IH].
  - by apply tc_once, upstream_of_collect.
  - eapply tc_r; [done|]. by apply upstream_of_collect.
Qed.

Lemma acyclic_upstream :
  acyclic g → ∀ x, ¬ tc (upstream_of (collect_upstream g)) x x.
Proof. intros Hacyc x Hx. by apply (Hacyc x), tc_upstream_edge. Qed.

Lemma acyclic_sn id :
  acyclic g → sn (upstream_of (collect_upstream g)) id.
Proof.
  intros Hacyc. apply tc_finite_sn.
  - intros x. by apply acyclic_upstream.
  - exists (JsObject.keys (downstream g)).
    induction 1 as [x y Hxy|x y z _ _ IH]; [|done].
    by eapply edge_source, upstream_of_collect.
Qed.

Lemma mark_unmaterialized_fold_keep l (acc : gmap string Status) k :
  acc !! k = Some none →
  fold_left
    (λ (statuses : gmap string Status) asset,
       if Nat.eqb (length (assetMaterializations (Node.definition asset))) 0
       then <[Node.id asset := none]> statuses
       else statuses) l acc !! k = Some none.
Proof.
  revert acc. induction l as [|a l IH]; intros acc Hk; simpl; [done|].
  apply IH. destruct (Nat.eqb _ _); [|done].
  rewrite lookup_insert. by case_decide.
Qed.

Lemma mark_unmaterialized_fold_node l (acc : gmap string Status) n :
  n ∈ l → assetMaterializations (Node.definition n) = [] →
  fold_left
    (λ (statuses : gmap string Status) asset,
       if Nat.eqb (length (assetMaterializations (Node.definition asset))) 0
       then <[Node.id asset := none]> statuses
       else statuses) l acc !! Node.id n = Some none.
Proof.
  intros Hn Hmats. revert acc.
  induction l as [|a l IH]; intros acc; [by apply elem_of_nil in Hn|].
  apply elem_of_cons in Hn as [<-|Hn]; simpl; [|by apply IH].
  rewrite Hmats; simpl. apply mark_unmaterialized_fold_keep, lookup_insert_eq.
Qed.

Lemma mark_unmaterialized_fold_inv l (acc : gmap string Status) k s :
  fold_left
    (λ (statuses : gmap string Status) asset,
       if Nat.eqb (length (assetMaterializations (Node.definition asset))) 0
       then <[Node.id asset := none]> statuses
       else statuses) l acc !! k = Some s →
  acc !! k = Some s ∨
  (s = none ∧ ∃ n, n ∈ l ∧ Node.id n = k ∧ assetMaterializations (Node.definition n) = []).
Proof.
  revert acc. induction l as [|a l IH]; intros acc; simpl; [by left|].
  intros [Hacc|(-> & n & Hn & Hid & Hmats)]%IH.
  - destruct (Nat.eqb _ _) eqn:Hlen; [|by left].
    rewrite lookup_insert in Hacc. case_decide as Hk; [|by left].
    injection Hacc as <-. right. split; [done|]. exists a. split_and!; [left|done|].
    apply Nat.eqb_eq in Hlen. by apply nil_length_inv.
  - right. split; [done|]. exists n. split_and!; [by right|done..].
Qed.

(** Step 3 assigns [none] to the nodes without materialization, and to
    nothing else. *)
Lemma mark_unmaterialized_node n :
  n ∈ JsObject.values (nodes g) →
  assetMaterializations (Node.definition n) = [] →
  mark_unmaterialized g !! Node.id n = Some none.
Proof. apply mark_unmaterialized_fold_node. Qed.

Lemma mark_unmaterialized_inv k s :
  mark_unmaterialized g !! k = Some s →
  s = none ∧ ∃ n, n ∈ JsObject.values (nodes g) ∧ Node.id n = k ∧
                  assetMaterializations (Node.definition n) = [].
Proof.
  intros [Hempty|?]%mark_unmaterialized_fold_inv; [|done].
  by rewrite lookup_empty in Hempty.
Qed.

Lemma collect_timestamps_fold_inv l (acc : gmap string Q) k :
  is_Some (fold_left
    (λ (timestamps : gmap string Q) node,
       <[Node.id node := latest_startTime (Node.definition node)]> timestamps)
    l acc !! k) →
  is_Some (acc !! k) ∨ ∃ n, n ∈ l ∧ Node.id n = k.
Proof.
  revert acc. induction l as [|a l IH]; intros acc; simpl; [by left|].
  intros [Hacc|(n & Hn & Hid)]%IH.
  - rewrite lookup_insert in Hacc. case_decide as Hk; [|by left].
    right. exists a. split; [left|done].
  - right. exists n. split; [by right|done].
Qed.

(** Step 1 collects a timestamp for node ids only. *)
Lemma collect_timestamps_inv k :
  is_Some (collect_timestamps g !! k) →
  ∃ n, n ∈ JsObject.values (nodes g) ∧ Node.id n = k.
Proof.
  intros [Hempty|?]%collect_timestamps_fold_inv; [|done].
  rewrite lookup_empty in Hempty. by destruct Hempty.
Qed.

Lemma collect_timestamps_fold_other l (acc : gmap string Q) k :
  k ∉ map Node.id l →
  fold_left
    (λ (timestamps : gmap string Q) node,
       <[Node.id node := latest_startTime (Node.definition node)]> timestamps)
    l acc !! k = acc !! k.
Proof.
  revert acc. induction l as [|a l IH]; intros acc Hk; simpl; [done|].
  simpl in Hk. apply not_elem_of_cons in Hk as [Hne Hk].
  rewrite IH by done. by rewrite lookup_insert_ne.
Qed.

Lemma collect_timestamps_fold_node l (acc : gmap string Q) n :
  NoDup (map Node.id l) → n ∈ l →
  fold_left
    (λ (timestamps : gmap string Q) node,
       <[Node.id node := latest_startTime (Node.definition node)]> timestamps)
    l acc !! Node.id n = Some (latest_startTime (Node.definition n)).
Proof.
  revert acc. induction l as [|a l IH]; intros acc Hnd Hn; [by apply elem_of_nil in Hn|].
  simpl in Hnd. apply NoDup_cons in Hnd as [Ha Hnd].
  apply elem_of_cons in Hn as [->|Hn]; simpl.
  - rewrite collect_timestamps_fold_other by done. apply lookup_insert_eq.
  - by apply IH.
Qed.

Lemma wf_nodes_value n :
  wf_nodes g → n ∈ JsObject.values (nodes g) →
  (Node.id n, n) ∈ nodes g ∧ JSON_stringify (path (Node.assetKey n)) = Node.id n.
Proof.
  intros [_ Hid] ([k n'] & -> & Hin)%list_elem_of_fmap; simpl.
  destruct (Hid k n' Hin) as [-> ?]. done.
Qed.

Lemma wf_nodes_id_inj n n' :
  wf_nodes g → n ∈ JsObject.values (nodes g) → n' ∈ JsObject.values (nodes g) →
  Node.id n = Node.id n' → n = n'.
Proof.
  intros Hwf [Hn _]%wf_nodes_value [Hn' _]%wf_nodes_value Heq; [|done..].
  rewrite Heq in Hn. destruct Hwf as [Hnd _].
  apply (elem_of_get _ _ _ Hnd) in Hn, Hn'. congruence.
Qed.

(** On a well-formed graph the collected timestamp of a node is the start
    time of its latest materialization, or 0. *)
Lemma collect_timestamps_node n :
  wf_nodes g → n ∈ JsObject.values (nodes g) →
  collect_timestamps g !! Node.id n = Some (latest_startTime (Node.definition n)).
Proof.
  intros Hwf Hn. apply collect_timestamps_fold_node; [|done].
  destruct Hwf as [Hnd Hid].
  replace (map Node.id (JsObject.values (nodes g))) with (JsObject.keys (nodes g)); [done|].
  unfold JsObject.keys, JsObject.values. rewrite map_map.
  apply map_ext_in. intros [k n'] Hin%list_elem_of_In; simpl.
  by destruct (Hid k n' Hin) as [-> _].
Qed.

Lemma mark_unmaterialized_materialized n :
  wf_nodes g → n ∈ JsObject.values (nodes g) →
  assetMaterializations (Node.definition n) ≠ [] →
  mark_unmaterialized g !! Node.id n = None.
Proof.
  intros Hwf Hn Hmats. apply eq_None_not_Some.
  intros [s (_ & n' & Hn' & Hid & Hmats')%mark_unmaterialized_inv].
  apply wf_nodes_id_inj in Hid; [|done..]. by subst n'.
Qed.

(** The whole computation on an acyclic graph: it returns, the same map
    for every sufficient fuel, and the map obeys the rule. *)
Lemma buildGraphComputeStatuses_acyclic :
  acyclic g →
  ∃ N m,
    (∀ fuel, N ≤ fuel → buildGraphComputeStatuses fuel g = Some m) ∧
    statuses_ok (collect_timestamps g) (collect_upstream g) (mark_unmaterialized g) m ∧
    mark_unmaterialized g ⊆ m ∧
    ∀ n, n ∈ JsObject.values (nodes g) →
      is_Some (m !! JSON_stringify (path (Node.assetKey n))).
Proof.
  intros Hacyc.
  destruct (compute_each_terminates (collect_timestamps g) (collect_upstream g)
              (JsObject.values (nodes g))) as [N HN].
  { intros id. by apply acyclic_sn. }
  destruct (HN N (mark_unmaterialized g)) as [m Hm]; [done|].
  exists N, m. split.
  - intros fuel Hfuel. by eapply compute_each_mono.
  - eapply compute_each_spec; [by apply acyclic_upstream| |done].
    intros k s ?. by left.
Qed.
End collected.

(** ** Classification of materialized nodes *)

Lemma js_gt_spec a b :
  js_gt a b = true ↔ ∃ x y, a = Some x ∧ b = Some y ∧ (y < x)%Q.
Proof.
  destruct a as [x|], b as [y|]; simpl;
    try (split; [done|by intros (? & ? & ? & ? & _)]).
  rewrite negb_true_iff, <- not_true_iff_false, Qle_bool_iff.
  split.
  - intros Hlt%Qnot_le_lt. eauto.
  - intros (? & ? & [= <-] & [= <-] & Hlt). by apply Qlt_not_le.
Qed.

Section classification.
Variable g : GraphData.

Lemma has_newer_upstream_spec id :
  has_newer_upstream (collect_timestamps g) (collect_upstream g) id = true ↔
  ∃ u, newer_upstream g id u.
Proof.
  unfold has_newer_upstream, newer_upstream. rewrite existsb_exists.
  split; intros (u & Hu & Hgt); exists u.
  - split; [|done]. by apply upstream_of_collect, list_elem_of_In.
  - split; [|done]. by apply list_elem_of_In, upstream_of_collect.
Qed.

Lemma materialized_status_rule m n :
  wf_nodes g →
  statuses_ok (collect_timestamps g) (collect_upstream g) (mark_unmaterialized g) m →
  (∀ n, n ∈ JsObject.values (nodes g) →
     is_Some (m !! JSON_stringify (path (Node.assetKey n)))) →
  n ∈ JsObject.values (nodes g) →
  assetMaterializations (Node.definition n) ≠ [] →
  ∃ s, m !! Node.id n = Some s ∧
       status_rule (collect_timestamps g) (collect_upstream g) m (Node.id n) s.
Proof.
  intros Hwf Hok Hall Hn Hmats.
  destruct (Hall n Hn) as [s Hs].
  destruct (wf_nodes_value g n Hwf Hn) as [_ Hid]. rewrite Hid in Hs.
  exists s. split; [done|].
  destruct (Hok _ _ Hs) as [Hmark|?]; [|done].
  by rewrite mark_unmaterialized_materialized in Hmark.
Qed.

(** An id that is not a node has no collected timestamp, no upstream, and
    no status other than [good]. *)
Lemma dangling_timestamp u :
  wf_nodes g → ¬ is_node g u → collect_timestamps g !! u = None.
Proof.
  intros Hwf Hu. apply eq_None_not_Some.
  intros (n & Hn & <-)%collect_timestamps_inv. apply Hu.
  destruct (wf_nodes_value g n Hwf Hn) as [Hin _].
  unfold is_node, JsObject.keys. apply list_elem_of_fmap. by exists (Node.id n, n).
Qed.

Lemma dangling_status m u s :
  wf_nodes g → targets_are_nodes g →
  statuses_ok (collect_timestamps g) (collect_upstream g) (mark_unmaterialized g) m →
  ¬ is_node g u → m !! u = Some s → s = good.
Proof.
  intros Hwf Htargets Hok Hu Hs.
  destruct (Hok _ _ Hs) as [(_ & n & Hn & <- & _)%mark_unmaterialized_inv|Hrule].
  { destruct Hu. destruct (wf_nodes_value g n Hwf Hn) as [Hin _].
    unfold is_node, JsObject.keys. apply list_elem_of_fmap. by exists (Node.id n, n). }
  unfold status_rule in Hrule.
  destruct (has_newer_upstream _ _ _) eqn:Hnewer.
  - apply has_newer_upstream_spec in Hnewer as (x & Hx & _).
    destruct Hu. by eapply Htargets.
  - destruct Hrule as [(_ & x & _ & Hx%upstream_of_collect & _)|[-> _]]; [|done].
    destruct Hu. by eapply Htargets.
Qed.
End classification.

(** ** The adjacency built by [buildGraphData] *)

Lemma lookup_edge_buildGraphData defs u d :
  lookup_edge (buildGraphData defs) u d = last_input (declared_edges defs) u d.
Proof.
  unfold lookup_edge, buildGraphData.
  rewrite downstream_fold_add_definition, get_fold_add_edge; simpl.
  by destruct (last_input _ _ _).
Qed.

Lemma edge_with_input_lookup defs u d input :
  edge_with_input (buildGraphData defs) u d input ↔
  lookup_edge (buildGraphData defs) u d = Some input.
Proof.
  unfold edge_with_input, lookup_edge.
  destruct (buildGraphData_inv defs) as [_ [_ Hinner]].
  destruct (Hinner u) as [Hnd _].
  destruct (JsObject.get (downstream (buildGraphData defs)) u) as [ds|]; simpl in *.
  - split; [by apply elem_of_get|by apply get_Some_elem_of].
  - split; [by intros ?%elem_of_nil|done].
Qed.

(** ** Declared dependencies become edges *)

Lemma last_input_is_Some edges u d input :
  (u, d, input) ∈ edges → is_Some (last_input edges u d).
Proof.
  induction edges as [|[[u' d'] input'] edges IH]; [by intros ?%elem_of_nil|].
  intros [[= <- <- <-]|Hin]%elem_of_cons; simpl.
  - destruct (last_input edges u d); [by eexists|].
    rewrite bool_decide_eq_true_2 by done. by eexists.
  - destruct (IH Hin) as [later ->]. by eexists.
Qed.

Lemma edge_lookup_edge g u d : edge g u d ↔ is_Some (lookup_edge g u d).
Proof.
  unfold edge, downstreamIds_of, lookup_edge. rewrite <- get_is_Some.
  destruct (JsObject.get (downstream g) u); simpl; [done|].
  split; intros [? [=]].
Qed.

Lemma declared_edge_is_edge defs def dependency :
  def ∈ defs → dependency ∈ dependencies def →
  edge (buildGraphData defs)
    (JSON_stringify (path (UpstreamAsset.assetKey (upstreamAsset dependency))))
    (JSON_stringify (path (assetKey def))).
Proof.
  intros Hdef Hdep. apply edge_lookup_edge.
  pose proof lookup_edge_buildGraphData as Hlookup. rewrite Hlookup.
  apply (last_input_is_Some _ _ _ (inputName dependency)).
  unfold declared_edges. apply list_elem_of_In, in_flat_map.
  exists def. split; [by apply list_elem_of_In|].
  apply in_map_iff. exists dependency. split; [done|by apply list_elem_of_In].
Qed.

(** * The claims *)

(** ** Cycle detection *)

(** C1. The claim is that [graphHasCycles] returns on every graph, also when
    a cycle is found while other nodes are still unvisited. On the graph
    with the cycle A → B → A and a third node C it does not: the first
    traversal answers [true] and leaves C in the set, after which the loop
    never calls [search] again and never empties the set, so no amount of
    fuel yields a result. *)
Theorem graphHasCycles_cycle_and_spare_never_returns :
  ∀ fuel, graphHasCycles fuel (buildGraphData cycle_and_spare) = None.
Proof.
  intros fuel. unfold graphHasCycles.
  set (g := buildGraphData cycle_and_spare).
  assert (JsObject.keys (nodes g) = [idA; idB; idC]) as -> by (vm_compute; reflexivity).
  apply (while_nodes_cycle_with_leftover g 3 idA [idB; idC] [idC]); [|done].
  vm_compute. reflexivity.
Qed.

(** C5. [graphHasCycles] answers [true] on the cycle A → B → C → A and
    [false] on every acyclic graph; [search] answers [true] at once on a
    node that is on the current stack, and [false] without descending on a
    node that is off the stack and already deleted from the set. *)
Theorem graphHasCycles_sound :
  (∀ fuel, 5 ≤ fuel → graphHasCycles fuel (buildGraphData cycle3) = Some true) ∧
  (∀ g fuel, acyclic g → length (nodes g) + 1 < fuel →
     graphHasCycles fuel g = Some false) ∧
  (∀ g fuel stack nodes node,
     node ∈ stack → search (S fuel) g stack nodes node = Some (true, nodes)) ∧
  (∀ g fuel stack nodes node,
     node ∉ stack → node ∉ nodes →
     search (S fuel) g stack nodes node = Some (false, nodes)).
Proof.
  split_and!.
  - intros fuel Hfuel. eapply graphHasCycles_mono; [done|]. vm_compute. reflexivity.
  - intros g fuel Hacyc Hfuel. by apply graphHasCycles_acyclic.
  - intros. by apply search_on_stack.
  - intros. by apply search_already_visited.
Qed.

Lemma graphHasCycles_sound_witness :
  graphHasCycles 6 (buildGraphData diamond) = Some false ∧
  search 1 (buildGraphData diamond) [idA; idB] [idC] idA = Some (true, [idC]) ∧
  search 1 (buildGraphData diamond) [idA; idC] [] idD = Some (false, []).
Proof.
  destruct graphHasCycles_sound as (_ & Hdag & Hback & Hcross).
  split_and!.
  - apply Hdag.
    + apply (ranked_acyclic alphabetical). vm_compute. reflexivity.
    + vm_compute. lia.
  - apply Hback. compute_done.
  - apply Hcross; compute_done.
Defined.

(** ** Staleness propagation *)

(** A call on an id that is its own first upstream, is not yet memoized and
    has no newer upstream calls itself in the same state: it never returns. *)
Lemma find_self_dependency timestamps upstream (st : gmap string Status) id rest fuel :
  st !! id = None →
  default [] (upstream !! id) = id :: rest →
  has_newer_upstream timestamps upstream id = false →
  findComputeStatusForId fuel timestamps st upstream id = None.
Proof.
  intros Hst Hups Hnewer. induction fuel as [|fuel IH]; [done|].
  rewrite find_unfold, Hst, Hnewer, Hups. simpl. by rewrite IH.
Qed.

(** C3, as stated, fails: on a materialized asset that depends on itself the
    status recursion returns for no fuel (it recurses without bound, which a
    JavaScript engine ends with a stack overflow), because a status is
    recorded only after the recursion over the upstream ids has returned. *)
Lemma status_recursion_diverges_on_self_loop :
  ¬ ∃ fuel m, buildGraphComputeStatuses fuel (buildGraphData self_loop) = Some m.
Proof.
  intros (fuel & m & Hrun). unfold buildGraphComputeStatuses in Hrun.
  set (g := buildGraphData self_loop) in *.
  assert (∃ a l, JsObject.values (nodes g) = a :: l ∧
                 JSON_stringify (path (Node.assetKey a)) = idA)
    as (a & l & Hvalues & Hid) by (eexists _, _; split; reflexivity).
  rewrite Hvalues in Hrun. cbn [compute_each] in Hrun. rewrite Hid in Hrun.
  rewrite (find_self_dependency _ _ _ idA []) in Hrun; [done|by vm_compute..].
Qed.

(** C3, amended. On every acyclic graph the status computation returns (the
    same map for every sufficient fuel), and a call on an id whose status is
    already recorded returns that status without recomputing it. *)
Theorem status_recursion_terminates_on_acyclic :
  (∀ g, acyclic g →
     ∃ N m, ∀ fuel, N ≤ fuel → buildGraphComputeStatuses fuel g = Some m) ∧
  (∀ fuel timestamps (statuses : gmap string Status) upstream id s,
     statuses !! id = Some s →
     findComputeStatusForId (S fuel) timestamps statuses upstream id = Some (s, statuses)).
Proof.
  split.
  - intros g Hacyc.
    destruct (buildGraphComputeStatuses_acyclic g Hacyc) as (N & m & Hrun & _).
    by exists N, m.
  - intros. by apply find_memoized.
Qed.

Lemma status_recursion_terminates_on_acyclic_witness :
  (∃ N m, ∀ fuel, N ≤ fuel →
     buildGraphComputeStatuses fuel (buildGraphData (chain3 10 5 20)) = Some m) ∧
  findComputeStatusForId 1 ∅ {[idA := old]} ∅ idA = Some (old, {[idA := old]}).
Proof.
  destruct status_recursion_terminates_on_acyclic as [Hrun Hmemo].
  split.
  - apply Hrun. apply (ranked_acyclic alphabetical). vm_compute. reflexivity.
  - apply Hmemo. apply lookup_singleton_eq.
Defined.

(** C6. On every acyclic graph the computation returns a map in which every
    node with an empty materialization list has status [none], whatever its
    edges. *)
Theorem unmaterialized_nodes_are_none (g : GraphData) :
  acyclic g →
  ∃ N m,
    (∀ fuel, N ≤ fuel → buildGraphComputeStatuses fuel g = Some m) ∧
    ∀ n, n ∈ JsObject.values (nodes g) →
      assetMaterializations (Node.definition n) = [] →
      m !! Node.id n = Some none.
Proof.
  intros Hacyc.
  destruct (buildGraphComputeStatuses_acyclic g Hacyc) as (N & m & Hrun & _ & Hsub & _).
  exists N, m. split; [done|]. intros n Hn Hmats.
  eapply lookup_weaken; [|done]. by apply mark_unmaterialized_node.
Qed.

Lemma unmaterialized_nodes_are_none_witness :
  ∃ N m,
    (∀ fuel, N ≤ fuel → buildGraphComputeStatuses fuel (buildGraphData diamond) = Some m) ∧
    ∀ n, n ∈ JsObject.values (nodes (buildGraphData diamond)) →
      assetMaterializations (Node.definition n) = [] →
      m !! Node.id n = Some none.
Proof.
  apply unmaterialized_nodes_are_none.
  apply (ranked_acyclic alphabetical). vm_compute. reflexivity.
Defined.

(** C2. On every acyclic graph the computation returns a map in which a
    node with at least one materialization is [old] when some direct
    upstream has a strictly greater collected timestamp; otherwise
    [downstream_from_old] when some direct upstream does not have status
    [good]; otherwise (all direct upstreams, if any, have status [good])
    [good]. *)
Theorem computeStatuses_classification (g : GraphData) :
  wf_nodes g → acyclic g →
  ∃ N m,
    (∀ fuel, N ≤ fuel → buildGraphComputeStatuses fuel g = Some m) ∧
    ∀ n, n ∈ JsObject.values (nodes g) →
      assetMaterializations (Node.definition n) ≠ [] →
      ∃ s, m !! Node.id n = Some s ∧
        ((∃ u, newer_upstream g (Node.id n) u) → s = old) ∧
        (¬ (∃ u, newer_upstream g (Node.id n) u) →
         (∃ u, edge g u (Node.id n) ∧ m !! u ≠ Some good) →
         s = downstream_from_old) ∧
        (¬ (∃ u, newer_upstream g (Node.id n) u) →
         (∀ u, edge g u (Node.id n) → m !! u = Some good) →
         s = good).
Proof.
  intros Hwf Hacyc.
  destruct (buildGraphComputeStatuses_acyclic g Hacyc) as (N & m & Hrun & Hok & _ & Hall).
  exists N, m. split; [done|]. intros n Hn Hmats.
  destruct (materialized_status_rule g m n) as (s & Hs & Hrule); [done..|].
  exists s. split; [done|]. unfold status_rule in Hrule.
  destruct (has_newer_upstream _ _ _) eqn:Hnewer.
  - subst s. split_and!; [done|intros Hno|intros Hno].
    + destruct Hno. by apply has_newer_upstream_spec.
    + destruct Hno. by apply has_newer_upstream_spec.
  - split_and!.
    + intros Hex%has_newer_upstream_spec. congruence.
    + intros _ (u & Hu & Hbad).
      destruct Hrule as [[-> _]|[_ Hgood]]; [done|].
      destruct Hbad. by apply Hgood, upstream_of_collect.
    + intros _ Hgood.
      destruct Hrule as [(_ & u & s' & Hu & Hs' & Hne)|[-> _]]; [|done].
      apply upstream_of_collect, Hgood in Hu. congruence.
Qed.

Lemma computeStatuses_classification_witness :
  ∃ N m,
    (∀ fuel, N ≤ fuel →
       buildGraphComputeStatuses fuel (buildGraphData (chain3 10 5 20)) = Some m) ∧
    ∀ n, n ∈ JsObject.values (nodes (buildGraphData (chain3 10 5 20))) →
      assetMaterializations (Node.definition n) ≠ [] →
      ∃ s, m !! Node.id n = Some s ∧
        ((∃ u, newer_upstream (buildGraphData (chain3 10 5 20)) (Node.id n) u) → s = old) ∧
        (¬ (∃ u, newer_upstream (buildGraphData (chain3 10 5 20)) (Node.id n) u) →
         (∃ u, edge (buildGraphData (chain3 10 5 20)) u (Node.id n) ∧ m !! u ≠ Some good) →
         s = downstream_from_old) ∧
        (¬ (∃ u, newer_upstream (buildGraphData (chain3 10 5 20)) (Node.id n) u) →
         (∀ u, edge (buildGraphData (chain3 10 5 20)) u (Node.id n) → m !! u = Some good) →
         s = good).
Proof.
  apply computeStatuses_classification.
  - apply buildGraphData_wf_nodes.
  - apply (ranked_acyclic alphabetical). vm_compute. reflexivity.
Defined.

(** The worked examples of the staleness rules. *)
Example freshness_and_propagation :
  (λ m : gmap string Status, (m !! idA, m !! idB, m !! idC)) <$>
    buildGraphComputeStatuses 4 (buildGraphData (chain3 10 5 20)) =
  Some (Some good, Some old, Some downstream_from_old).
Proof. vm_compute. reflexivity. Qed.

Example all_good_chain :
  (λ m : gmap string Status, (m !! idA, m !! idB, m !! idC)) <$>
    buildGraphComputeStatuses 4 (buildGraphData (chain3 1 2 3)) =
  Some (Some good, Some good, Some good).
Proof. vm_compute. reflexivity. Qed.

Example unmaterialized_upstream_is_not_good :
  (λ m : gmap string Status, (m !! idA, m !! idB, m !! idC, m !! idD)) <$>
    buildGraphComputeStatuses 4 (buildGraphData diamond) =
  Some (Some good, Some none, Some good, Some downstream_from_old).
Proof. vm_compute. reflexivity. Qed.

(** C7. [buildGraphData] has no failure case and records every declared
    dependency as an edge, whether or not its upstream key is declared. On
    the built graph, when acyclic, the status of a materialized node is
    decided by its upstream ids that are nodes alone: it is [old] exactly
    when one of those is newer, otherwise [downstream_from_old] exactly when
    one of those is not [good], otherwise [good]. A dangling upstream id
    changes nothing. *)
Theorem dangling_references_tolerated (defs : list AssetDefinition) :
  (∀ def dependency, def ∈ defs → dependency ∈ dependencies def →
     edge (buildGraphData defs)
       (JSON_stringify (path (UpstreamAsset.assetKey (upstreamAsset dependency))))
       (JSON_stringify (path (assetKey def)))) ∧
  (acyclic (buildGraphData defs) →
   ∃ N m,
     (∀ fuel, N ≤ fuel → buildGraphComputeStatuses fuel (buildGraphData defs) = Some m) ∧
     ∀ n, n ∈ JsObject.values (nodes (buildGraphData defs)) →
       assetMaterializations (Node.definition n) ≠ [] →
       ∃ s, m !! Node.id n = Some s ∧
         ((∃ u, is_node (buildGraphData defs) u ∧
                newer_upstream (buildGraphData defs) (Node.id n) u) →
          s = old) ∧
         (¬ (∃ u, is_node (buildGraphData defs) u ∧
                  newer_upstream (buildGraphData defs) (Node.id n) u) →
          (∃ u, is_node (buildGraphData defs) u ∧
                edge (buildGraphData defs) u (Node.id n) ∧ m !! u ≠ Some good) →
          s = downstream_from_old) ∧
         (¬ (∃ u, is_node (buildGraphData defs) u ∧
                  newer_upstream (buildGraphData defs) (Node.id n) u) →
          (∀ u, is_node (buildGraphData defs) u →
                edge (buildGraphData defs) u (Node.id n) → m !! u = Some good) →
          s = good)).
Proof.
  split; [intros def dependency; apply declared_edge_is_edge|].
  set (g := buildGraphData defs). intros Hacyc.
  pose proof (buildGraphData_wf_nodes defs) as Hwf.
  pose proof (buildGraphData_targets defs) as Htargets. fold g in Hwf, Htargets.
  destruct (buildGraphComputeStatuses_acyclic g Hacyc) as (N & m & Hrun & Hok & _ & Hall).
  exists N, m. split; [done|]. intros n Hn Hmats.
  destruct (materialized_status_rule g m n) as (s & Hs & Hrule); [done..|].
  exists s. split; [done|].
  assert (∀ u, newer_upstream g (Node.id n) u → is_node g u) as Hnewer_node.
  { intros u [_ Hgt]. destruct (decide (u ∈ JsObject.keys (nodes g))) as [|Hu]; [done|].
    by rewrite (dangling_timestamp g u Hwf Hu) in Hgt. }
  unfold status_rule in Hrule.
  destruct (has_newer_upstream _ _ _) eqn:Hnewer.
  - subst s. apply has_newer_upstream_spec in Hnewer as [u Hu].
    split_and!; [done|intros Hno|intros Hno]; destruct Hno; exists u; split; auto.
  - split_and!.
    + intros (u & _ & Hu). assert (∃ u, newer_upstream g (Node.id n) u) as Hex by eauto.
      apply has_newer_upstream_spec in Hex. congruence.
    + intros _ (u & _ & Hu & Hbad).
      destruct Hrule as [[-> _]|[_ Hgood]]; [done|].
      destruct Hbad. by apply Hgood, upstream_of_collect.
    + intros _ Hgood.
      destruct Hrule as [(_ & u & s' & Hu & Hs' & Hne)|[-> _]]; [|done].
      destruct (decide (u ∈ JsObject.keys (nodes g))) as [Hnode|Hdangling].
      * apply upstream_of_collect in Hu. rewrite (Hgood u Hnode Hu) in Hs'. congruence.
      * destruct Hne. by eapply (dangling_status g m u).
Qed.

Lemma dangling_references_tolerated_witness :
  edge (buildGraphData dangling) idD idB ∧
  ¬ is_node (buildGraphData dangling) idD ∧
  ∃ N m,
    (∀ fuel, N ≤ fuel → buildGraphComputeStatuses fuel (buildGraphData dangling) = Some m) ∧
    ∀ n, n ∈ JsObject.values (nodes (buildGraphData dangling)) →
      assetMaterializations (Node.definition n) ≠ [] →
      ∃ s, m !! Node.id n = Some s ∧
        ((∃ u, is_node (buildGraphData dangling) u ∧
               newer_upstream (buildGraphData dangling) (Node.id n) u) →
         s = old) ∧
        (¬ (∃ u, is_node (buildGraphData dangling) u ∧
                 newer_upstream (buildGraphData dangling) (Node.id n) u) →
         (∃ u, is_node (buildGraphData dangling) u ∧
               edge (buildGraphData dangling) u (Node.id n) ∧ m !! u ≠ Some good) →
         s = downstream_from_old) ∧
        (¬ (∃ u, is_node (buildGraphData dangling) u ∧
                 newer_upstream (buildGraphData dangling) (Node.id n) u) →
         (∀ u, is_node (buildGraphData dangling) u →
               edge (buildGraphData dangling) u (Node.id n) → m !! u = Some good) →
         s = good).
Proof.
  destruct (dangling_references_tolerated dangling) as [Hbuild Hstatus].
  split_and!.
  - apply (Hbuild (asset "B" [dep "in" "A"; dep "gone" "D"] (materialized_at 2))
             (dep "gone" "D")).
    + unfold dangling. apply elem_of_cons. right. apply elem_of_cons. by left.
    + simpl. apply elem_of_cons. right. apply elem_of_cons. by left.
  - unfold is_node. compute_done.
  - apply Hstatus.
    apply (ranked_acyclic (position [idD; idA; idB])). vm_compute. reflexivity.
Defined.

Example dangling_upstream_leaves_status_good :
  (λ m : gmap string Status, (m !! idA, m !! idB)) <$>
    buildGraphComputeStatuses 4 (buildGraphData dangling) =
  Some (Some good, Some good).
Proof. vm_compute. reflexivity. Qed.

(** Two returning runs of the status computation agree, whatever fuel each
    was given. *)
Lemma buildGraphComputeStatuses_fuel_independent g fuel1 fuel2 m1 m2 :
  buildGraphComputeStatuses fuel1 g = Some m1 →
  buildGraphComputeStatuses fuel2 g = Some m2 →
  m1 = m2.
Proof.
  unfold buildGraphComputeStatuses. intros H1 H2.
  apply (compute_each_mono _ _ _ (fuel1 `max` fuel2)) in H1; [|lia].
  apply (compute_each_mono _ _ _ (fuel1 `max` fuel2)) in H2; [|lia].
  congruence.
Qed.

(** ** Graph construction *)

(** C4, as stated, fails: when B declares two dependencies on A under the
    input names x and y, the entries for x and y are not both kept. *)
Lemma two_inputs_not_both_retained :
  ¬ (edge_with_input (buildGraphData two_inputs) idA idB "x" ∧
     edge_with_input (buildGraphData two_inputs) idA idB "y").
Proof.
  intros [Hx _]. apply edge_with_input_lookup in Hx.
  vm_compute in Hx. discriminate.
Qed.

(** C4, amended. The adjacency holds one entry per upstream/downstream pair:
    an entry with a given input name is present under the pair exactly when
    that name is the input name of the last dependency record declared for
    the pair. A later record for the same pair replaces the earlier entry
    whatever its input name. *)
Theorem buildGraphData_keeps_last_input_per_pair
    (defs : list AssetDefinition) (u d input : string) :
  edge_with_input (buildGraphData defs) u d input ↔
  last_input (declared_edges defs) u d = Some input.
Proof. by rewrite edge_with_input_lookup, lookup_edge_buildGraphData. Qed.

Example two_inputs_adjacency :
  downstream (buildGraphData two_inputs) = [(idA, [(idB, "y")])].
Proof. vm_compute. reflexivity. Qed.

(** ** Node dimensions *)

(** The height computed by [getNodeDimensions], case by case. *)
Lemma getNodeDimensions_height (def : AssetDefinition) :
  ∃ w, getNodeDimensions def =
    inr {| width := w;
           height :=
             (40
              + match description def with
                | Some text => if decide (text = "") then 0 else 25
                | None => 0
                end
              + match assetMaterializations def with
                | [] => 0
                | latest :: _ =>
                    22 + match runOrError latest with
                         | PipelineRun _ _ _ _ _ => 22
                         | _ => 0
                         end
                end)%Z |} ∧
    w = (Qmax 250 (inject_Z (Z.of_nat (String.length (join ">" (path (assetKey def))))) * 9.5)
         + 25)%Q.
Proof.
  unfold getNodeDimensions, runForDisplay, truthy_string.
  destruct (description def) as [text|];
    destruct (assetMaterializations def) as [|latest rest]; simpl;
    repeat match goal with
           | |- context [String.eqb text ""] => destruct (String.eqb_spec text "")
           | |- context [runOrError latest] => destruct (runOrError latest)
           end;
    simpl; eexists; (split; [|reflexivity]);
    repeat case_decide; done.
Qed.

(** C9. The width is [max(250, 9.5 L) + 25] for [L] the length of the path
    segments joined by [>]; the height is 40, plus 25 when the description
    is a non-empty string, plus 22 when there is a materialization, plus 22
    more when the run of the first materialization is a [PipelineRun]. In
    particular without description and materialization the height is 40. *)
Theorem getNodeDimensions_formula (def : AssetDefinition) :
  ∃ dims, getNodeDimensions def = inr dims ∧
    (width dims ==
       Qmax 250 (9.5 * inject_Z (Z.of_nat (String.length (join ">" (path (assetKey def))))))
       + 25)%Q ∧
    height dims =
      (40
       + match description def with
         | Some text => if decide (text = "") then 0 else 25
         | None => 0
         end
       + match assetMaterializations def with
         | [] => 0
         | latest :: _ =>
             22 + match runOrError latest with
                  | PipelineRun _ _ _ _ _ => 22
                  | _ => 0
                  end
         end)%Z.
Proof.
  destruct (getNodeDimensions_height def) as (w & -> & ->).
  eexists. split; [reflexivity|]. simpl. split; [|done]. by rewrite Qmult_comm.
Qed.

Example getNodeDimensions_bare :
  getNodeDimensions (asset "A" [] []) = inr {| width := 275; height := 40 |}.
Proof. vm_compute. reflexivity. Qed.

Example getNodeDimensions_long_described_materialized :
  match
    getNodeDimensions
      {| assetKey := {| path := ["warehouse"; "daily_orders_by_region"] |};
         opName := None; description := Some "Orders"; jobNames := [];
         dependencies := [];
         assetMaterializations :=
           [ {| materializationEvent := {| stepStats := None |};
                runOrError := PipelineRun "1" "r" "SUCCESS" "job" "default" |} ] |}
  with
  | inr dims => Qeq_bool (width dims) 329 && (height dims =? 109)%Z
  | inl _ => false
  end = true.
Proof. vm_compute. reflexivity. Qed.

(** C10. [getNodeDimensions] returns on every asset definition: although
    [runForDisplay] throws on an empty materialization list (and returns
    otherwise), it is only called when the list is non-empty. *)
Theorem getNodeDimensions_total :
  (∀ def, ∃ dims, getNodeDimensions def = inr dims) ∧
  (∀ d, assetMaterializations d = [] → runForDisplay d = inl TypeError) ∧
  (∀ d, assetMaterializations d ≠ [] → ∃ run, runForDisplay d = inr run).
Proof.
  split_and!.
  - intros def. destruct (getNodeDimensions_height def) as (w & Hdims & _). eauto.
  - intros d Hmats. unfold runForDisplay. by rewrite Hmats.
  - intros d Hmats. unfold runForDisplay.
    destruct (assetMaterializations d) as [|latest rest]; [done|]. simpl.
    destruct (runOrError latest); eauto.
Qed.

Lemma getNodeDimensions_total_witness :
  (∃ dims, getNodeDimensions (asset "A" [] []) = inr dims) ∧
  runForDisplay (asset "A" [] []) = inl TypeError ∧
  (∃ run, runForDisplay (asset "A" [] (materialized_at 1)) = inr run).
Proof.
  destruct getNodeDimensions_total as (Htotal & Hthrows & Hreturns).
  split_and!; [apply Htotal|by apply Hthrows|by apply Hreturns].
Defined.


(** * Further properties of the code *)

(** ** [buildGraphData]: nodes and edges against the definition list *)

Lemma get_nodes_fold_add_definition defs acc k :
  JsObject.get (nodes (fold_left add_definition defs acc)) k =
  match last_definition defs k with
  | Some def => Some (node_of def)
  | None => JsObject.get (nodes acc) k
  end.
Proof.
  revert acc. induction defs as [|def defs IH]; intros acc; [done|].
  cbn [fold_left last_definition]. rewrite IH.
  destruct (last_definition defs k); [done|]. simpl.
  case_bool_decide as Hk.
  - subst k. by rewrite get_set_eq.
  - by rewrite get_set_ne.
Qed.

Lemma get_nodes_buildGraphData defs k :
  JsObject.get (nodes (buildGraphData defs)) k = node_of <$> last_definition defs k.
Proof.
  unfold buildGraphData. rewrite get_nodes_fold_add_definition.
  by destruct (last_definition defs k).
Qed.

Lemma last_definition_Some defs k def :
  last_definition defs k = Some def →
  def ∈ defs ∧ JSON_stringify (path (assetKey def)) = k.
Proof.
  induction defs as [|def0 defs IH]; [done|]. simpl.
  destruct (last_definition defs k) as [later|].
  - intros [= ->]. destruct IH as [? ?]; [done|]. split; [by right|done].
  - case_bool_decide; [|done]. intros [= ->]. split; [left|done].
Qed.

Lemma last_definition_is_Some defs def :
  def ∈ defs → is_Some (last_definition defs (JSON_stringify (path (assetKey def)))).
Proof.
  induction defs as [|def0 defs IH]; [by intros ?%elem_of_nil|].
  intros [->|Hin]%elem_of_cons; simpl.
  - destruct (last_definition defs _); [by eexists|].
    rewrite bool_decide_eq_true_2 by done. by eexists.
  - destruct (IH Hin) as [later ->]. by eexists.
Qed.

(** X1. The node table holds, under each key, the node made from the last
    definition declared with that serialized asset key (a repeated key
    overwrites the earlier node), and nothing under any other key. *)
Theorem buildGraphData_node_is_last_definition
    (defs : list AssetDefinition) (k : string) :
  JsObject.get (nodes (buildGraphData defs)) k = node_of <$> last_definition defs k ∧
  (is_node (buildGraphData defs) k ↔
   ∃ def, def ∈ defs ∧ JSON_stringify (path (assetKey def)) = k).
Proof.
  split; [apply get_nodes_buildGraphData|].
  unfold is_node. rewrite <- get_is_Some, get_nodes_buildGraphData, fmap_is_Some.
  split.
  - intros [def Hdef]. exists def. by apply last_definition_Some.
  - intros (def & Hin & <-). by apply last_definition_is_Some.
Qed.

Lemma last_input_Some_elem_of edges u d input :
  last_input edges u d = Some input → (u, d, input) ∈ edges.
Proof.
  induction edges as [|[[u' d'] input'] edges IH]; [done|]. simpl.
  destruct (last_input edges u d) as [later|].
  - intros [= ->]. right. by apply IH.
  - case_bool_decide as Heq; [|done]. destruct Heq as [-> ->]. intros [= ->]. left.
Qed.

Lemma elem_of_declared_edges defs u d input :
  (u, d, input) ∈ declared_edges defs ↔
  ∃ def dependency, def ∈ defs ∧ dependency ∈ dependencies def ∧
    JSON_stringify (path (UpstreamAsset.assetKey (upstreamAsset dependency))) = u ∧
    JSON_stringify (path (assetKey def)) = d ∧ inputName dependency = input.
Proof.
  unfold declared_edges. rewrite list_elem_of_In, in_flat_map. split.
  - intros (def & Hdef & (dependency & [= <- <- <-] & Hdep)%in_map_iff).
    exists def, dependency. by rewrite <- !list_elem_of_In in *.
  - intros (def & dependency & Hdef & Hdep & <- & <- & <-).
    exists def. split; [by apply list_elem_of_In|].
    apply in_map_iff. exists dependency. split; [done|by apply list_elem_of_In].
Qed.

Lemma edge_buildGraphData defs u d :
  edge (buildGraphData defs) u d ↔
  ∃ def dependency, def ∈ defs ∧ dependency ∈ dependencies def ∧
    JSON_stringify (path (UpstreamAsset.assetKey (upstreamAsset dependency))) = u ∧
    JSON_stringify (path (assetKey def)) = d.
Proof.
  rewrite edge_lookup_edge, lookup_edge_buildGraphData. split.
  - intros [input Hlast]. apply last_input_Some_elem_of, elem_of_declared_edges in Hlast
      as (def & dependency & ? & ? & ? & ? & _). by exists def, dependency.
  - intros (def & dependency & Hdef & Hdep & Hu & Hd).
    apply (last_input_is_Some _ _ _ (inputName dependency)).
    apply elem_of_declared_edges. by exists def, dependency.
Qed.

(** X2. The edges of the built graph are exactly the declared dependencies:
    there is an edge from [u] to [d] if and only if some definition with
    serialized key [d] declares a dependency whose upstream key serializes
    to [u]. *)
Theorem buildGraphData_edges_are_declared_dependencies
    (defs : list AssetDefinition) (u d : string) :
  edge (buildGraphData defs) u d ↔
  ∃ def dependency, def ∈ defs ∧ dependency ∈ dependencies def ∧
    JSON_stringify (path (UpstreamAsset.assetKey (upstreamAsset dependency))) = u ∧
    JSON_stringify (path (assetKey def)) = d.
Proof. apply edge_buildGraphData. Qed.

(** X3. Every edge of the built graph ends at a node: the downstream id of
    an edge is always a key of the node table, so looking a downstream id up
    in [graphData.nodes] never yields [undefined]. (The upstream id need
    not be a node.) *)
Theorem buildGraphData_edge_target_is_node
    (defs : list AssetDefinition) (u d : string) :
  edge (buildGraphData defs) u d →
  ∃ n, JsObject.get (nodes (buildGraphData defs)) d = Some n ∧ Node.id n = d.
Proof.
  intros Hed%buildGraphData_targets%get_is_Some. destruct Hed as [n Hn].
  exists n. split; [done|].
  apply get_Some_elem_of in Hn. by apply (buildGraphData_wf_nodes defs).
Qed.

Lemma buildGraphData_edge_target_is_node_witness :
  ∃ n, JsObject.get (nodes (buildGraphData dangling)) idB = Some n ∧ Node.id n = idB.
Proof.
  apply (buildGraphData_edge_target_is_node dangling idD idB).
  unfold edge. compute_done.
Defined.

(** ** The tables of [buildGraphComputeStatuses] against the graph *)

Lemma collect_upstream_inner_exact u ds (up : gmap string (list string)) d :
  NoDup ds →
  default []
    (fold_left
       (λ (upstream : gmap string (list string)) downstreamId,
          <[downstreamId := default [] (upstream !! downstreamId) ++ [u]]> upstream)
       ds up !! d) =
  default [] (up !! d) ++ (if bool_decide (d ∈ ds) then [u] else []).
Proof.
  revert up. induction ds as [|d0 ds IH]; intros up Hnd; simpl.
  - by rewrite app_nil_r.
  - apply NoDup_cons in Hnd as [Hd0 Hnd]. rewrite IH by done.
    destruct (decide (d0 = d)) as [->|Hd].
    + rewrite lookup_insert_eq; simpl. rewrite bool_decide_eq_false_2 by done.
      rewrite bool_decide_eq_true_2 by left. by rewrite app_nil_r.
    + rewrite lookup_insert_ne by done. f_equal.
      rewrite (bool_decide_ext (d ∈ d0 :: ds) (d ∈ ds)); [done|].
      rewrite elem_of_cons. naive_solver.
Qed.

Lemma collect_upstream_outer_exact g us (up : gmap string (list string)) d :
  (∀ u, NoDup (downstreamIds_of g u)) →
  default []
    (fold_left
       (λ (upstream : gmap string (list string)) upstreamId,
          fold_left
            (λ (upstream : gmap string (list string)) downstreamId,
               <[downstreamId := default [] (upstream !! downstreamId) ++ [upstreamId]]> upstream)
            (downstreamIds_of g upstreamId) upstream)
       us up !! d) =
  default [] (up !! d) ++ filter (λ u, d ∈ downstreamIds_of g u) us.
Proof.
  intros Hnd. revert up. induction us as [|u0 us IH]; intros up; simpl.
  - by rewrite app_nil_r.
  - rewrite IH, collect_upstream_inner_exact by done. rewrite <- app_assoc. f_equal.
    rewrite filter_cons. by case_bool_decide; case_decide.
Qed.

(** X4. The upstream table is the exact inverse of the downstream adjacency
    of the built graph: the list recorded for [d] consists of the upstream
    keys that have [d] among their downstream ids, each once, in the key
    order of [graphData.downstream]. *)
Theorem collect_upstream_inverts_downstream (defs : list AssetDefinition) (d : string) :
  default [] (collect_upstream (buildGraphData defs) !! d) =
  filter (λ u, d ∈ downstreamIds_of (buildGraphData defs) u)
    (JsObject.keys (downstream (buildGraphData defs))).
Proof.
  unfold collect_upstream. rewrite collect_upstream_outer_exact.
  - by rewrite lookup_empty.
  - intros u. destruct (buildGraphData_inv defs) as [_ [_ Hinner]]. apply Hinner.
Qed.

Lemma collect_timestamps_buildGraphData defs k :
  collect_timestamps (buildGraphData defs) !! k =
  latest_startTime <$> last_definition defs k.
Proof.
  pose proof (buildGraphData_wf_nodes defs) as Hwf.
  pose proof (get_nodes_buildGraphData defs k) as Hget.
  destruct (last_definition defs k) as [def|] eqn:Hlast; simpl in *.
  - apply get_Some_elem_of in Hget.
    assert (node_of def ∈ JsObject.values (nodes (buildGraphData defs))) as Hn.
    { unfold JsObject.values. apply list_elem_of_fmap. by exists (k, node_of def). }
    apply last_definition_Some in Hlast as [_ <-].
    by apply (collect_timestamps_node _ (node_of def)).
  - apply dangling_timestamp; [done|]. unfold is_node. by rewrite <- get_None.
Qed.

Lemma mark_unmaterialized_buildGraphData defs k :
  mark_unmaterialized (buildGraphData defs) !! k =
  match last_definition defs k with
  | Some def => if bool_decide (assetMaterializations def = []) then Some none else None
  | None => None
  end.
Proof.
  pose proof (buildGraphData_wf_nodes defs) as Hwf.
  pose proof (get_nodes_buildGraphData defs k) as Hget.
  destruct (last_definition defs k) as [def|] eqn:Hlast; simpl in *.
  - apply get_Some_elem_of in Hget.
    assert (node_of def ∈ JsObject.values (nodes (buildGraphData defs))) as Hn.
    { unfold JsObject.values. apply list_elem_of_fmap. by exists (k, node_of def). }
    apply last_definition_Some in Hlast as [_ <-].
    case_bool_decide as Hmats.
    + by apply (mark_unmaterialized_node _ (node_of def)).
    + by apply (mark_unmaterialized_materialized _ (node_of def)).
  - apply eq_None_not_Some. intros [s (_ & n & Hn & <- & _)%mark_unmaterialized_inv].
    apply (wf_nodes_value _ _ Hwf) in Hn as [Hn%(elem_of_get _ _ _ (proj1 Hwf)) _].
    congruence.
Qed.

(** X5. Steps 1 and 3 on a built graph, read against the definition list:
    the timestamp collected for a key is the start time of the latest
    materialization of the last definition declared with that key, 0 when
    that definition has no materialization, no step statistics or no start
    time, and absent when no definition has the key; the status preset
    before the recursion is [none] exactly for the keys whose last
    definition has no materialization. *)
Theorem collected_tables_of_built_graph (defs : list AssetDefinition) (k : string) :
  collect_timestamps (buildGraphData defs) !! k =
    (λ def,
       match assetMaterializations def with
       | [] => 0%Q
       | latest :: _ =>
           match stepStats (materializationEvent latest) with
           | Some {| startTime := Some t |} => if Qeq_bool t 0 then 0%Q else t
           | _ => 0%Q
           end
       end) <$> last_definition defs k ∧
  (mark_unmaterialized (buildGraphData defs) !! k = Some none ↔
   ∃ def, last_definition defs k = Some def ∧ assetMaterializations def = []) ∧
  (∀ s, mark_unmaterialized (buildGraphData defs) !! k = Some s → s = none).
Proof.
  split_and!.
  - rewrite collect_timestamps_buildGraphData.
    destruct (last_definition defs k) as [def|]; [|done]. simpl. f_equal.
    unfold latest_startTime. destruct (assetMaterializations def) as [|latest ?]; [done|].
    simpl. destruct (stepStats (materializationEvent latest)) as [[? [t|] ?]|]; done.
  - rewrite mark_unmaterialized_buildGraphData.
    destruct (last_definition defs k) as [def|]; [|by split; [|intros (? & ? & _)]].
    case_bool_decide; split; try done; [by eauto|by intros (? & [= <-] & ?)].
  - by intros s [? _]%mark_unmaterialized_inv.
Qed.

(** ** [graphHasCycles]: the answer is right whenever there is one *)

Lemma some_st_false_inv {A S : Type} (f : S → A → option (bool * S))
    (I : S → Prop) (le : S → S → Prop) `{!PreOrder le} (miss : S → A → Prop) xs s s' :
  (∀ s x s', x ∈ xs → I s → f s x = Some (false, s') → I s' ∧ le s s' ∧ miss s' x) →
  (∀ s s' x, le s s' → miss s x → miss s' x) →
  I s → some_st f xs s = Some (false, s') →
  I s' ∧ le s s' ∧ ∀ x, x ∈ xs → miss s' x.
Proof.
  intros Hf Hmono. revert s. induction xs as [|x xs IH]; intros s HI; simpl.
  - intros [= <-]. split_and!; [done..|]. by intros x ?%elem_of_nil.
  - destruct (f s x) as [[[] s1]|] eqn:Hfx; [done| |done].
    intros Hrest. destruct (Hf s x s1) as (HI1 & Hle1 & Hmiss); [left|done..|].
    destruct IH with (s := s1) as (HI' & Hle' & Hres); [|done..|].
    { intros s2 y s3 Hy. apply Hf. by right. }
    split_and!; [done|by etrans|].
    intros y [->|Hy]%elem_of_cons; [by eapply Hmono|by apply Hres].
Qed.

Section cycle_detection_complete.
Variable g : GraphData.
Hypothesis Htargets : targets_are_nodes g.

Local Abbreviation all := (JsObject.keys (nodes g)).

Lemma search_false_finished fuel stack nodes node nodes' :
  search fuel g stack nodes node = Some (false, nodes') →
  (∀ x, x ∈ nodes → x ∈ all) →
  finished_ranked g all nodes stack →
  (∀ x, x ∈ nodes' → x ∈ nodes) ∧
  finished_ranked g all nodes' stack ∧
  (node ∈ all → finished all nodes' stack node).
Proof.
  revert stack nodes node nodes'.
  induction fuel as [|fuel IH]; intros stack nodes node nodes'; [done|].
  cbn [search]. case_bool_decide as Hstack; [done|].
  case_bool_decide as Hnodes; [|by intros [= <-]].
  intros Hsome Hall Hranked.
  assert (PreOrder (λ N N' : list string, ∀ x, x ∈ N' → x ∈ N)) as Hpre.
  { split; [by intros ?|]. intros N1 N2 N3 H12 H23 x Hx. by apply H12, H23. }
  apply (some_st_false_inv _
           (λ N, (∀ x, x ∈ N → x ∈ all) ∧ finished_ranked g all N (stack ++ [node]))
           (λ N N', ∀ x, x ∈ N' → x ∈ N)
           (λ N d, finished all N (stack ++ [node]) d))
    in Hsome as ([Hall' [rank Hrank]] & Hsub & Hdown).
  - assert (node ∉ nodes') as Hgone.
    { intros [Hne _]%Hsub%list_elem_of_filter. done. }
    assert (∀ x, x ∈ nodes' → x ∈ nodes) as Hsub'.
    { intros x [_ Hx]%Hsub%list_elem_of_filter. done. }
    split_and!; [done| |by intros ?].
    exists (λ x, if decide (x = node)
                 then S (list_sum (rank <$> downstreamIds_of g node))
                 else rank x).
    intros x d (Hx & Hxn & Hxs) Hed.
    assert (finished all nodes' (stack ++ [node]) d) as (Hd & Hdn & Hds).
    { destruct (decide (x = node)) as [->|Hne]; [by apply Hdown|].
      apply (Hrank x d); [|done]. split_and!; [done..|].
      rewrite elem_of_app, list_elem_of_singleton. naive_solver. }
    rewrite elem_of_app, list_elem_of_singleton in Hds.
    split; [split_and!; [done..|naive_solver]|].
    rewrite (decide_False (P := d = node)) by naive_solver.
    case_decide as Hx'.
    + subst x. apply Nat.lt_succ_r.
      assert (rank d ∈ rank <$> downstreamIds_of g node) as Hin
        by (apply list_elem_of_fmap; by exists d).
      clear -Hin. induction Hin as [|?? ? _ IH]; simpl; lia.
    + apply (Hrank x d); [|done]. split_and!; [done..|].
      rewrite elem_of_app, list_elem_of_singleton. naive_solver.
  - intros N d N' Hd [HN HrN] Hcall.
    destruct (IH _ _ _ _ Hcall HN HrN) as (? & ? & Hfin).
    split_and!; [naive_solver|done..|]. apply Hfin. by eapply Htargets.
  - intros N N' d Hsub (? & ? & ?). split_and!; [done| |done]. naive_solver.
  - split.
    + intros x [_ Hx]%list_elem_of_filter. by apply Hall.
    + destruct Hranked as [rank Hrank]. exists rank.
      intros x d (Hx & Hxn & Hxs) Hed.
      assert (x ≠ node) as Hne.
      { rewrite elem_of_app, list_elem_of_singleton in Hxs. naive_solver. }
      assert (finished all nodes stack x) as Hfin.
      { split_and!; [done| |].
        - intros Hin. apply Hxn, list_elem_of_filter. done.
        - rewrite elem_of_app in Hxs. naive_solver. }
      destruct (Hrank x d Hfin Hed) as ((Hd & Hdn & Hds) & Hlt).
      split; [|done]. split_and!; [done| |].
      * intros [_ ?]%list_elem_of_filter. done.
      * rewrite elem_of_app, list_elem_of_singleton.
        intros [?| ->]; [done|]. done.
Qed.

Lemma while_nodes_true fuel nodes b :
  while_nodes fuel g nodes true = Some b → b = true.
Proof.
  revert nodes. induction fuel as [|fuel IH]; intros nodes; [done|].
  simpl. destruct nodes; [by intros [= <-]|apply IH].
Qed.

Lemma while_nodes_false_finished fuel nodes :
  while_nodes fuel g nodes false = Some false →
  (∀ x, x ∈ nodes → x ∈ all) →
  finished_ranked g all nodes [] →
  finished_ranked g all [] [].
Proof.
  revert nodes. induction fuel as [|fuel IH]; intros nodes; [done|].
  cbn [while_nodes]. destruct nodes as [|first rest]; [done|].
  destruct (search fuel g [] (first :: rest) first) as [[found nodes']|] eqn:Hs; [|done].
  destruct found; [by intros ?%while_nodes_true|].
  intros Hloop Hall Hranked.
  destruct (search_false_finished _ _ _ _ _ Hs Hall Hranked) as (Hsub & Hranked' & _).
  apply (IH nodes'); [done| |done]. intros x Hx. by apply Hall, Hsub.
Qed.

Lemma finished_ranked_acyclic : finished_ranked g all [] [] → acyclic g.
Proof.
  intros [rank Hrank] x Hx.
  assert (∀ a b, tc (edge g) a b → a ∈ all → rank b < rank a) as Hlt.
  { induction 1 as [a b Hab|a b c Hab _ IH]; intros Ha.
    - apply (Hrank a b); [|done]. split_and!; [done|apply not_elem_of_nil..].
    - destruct (Hrank a b) as [(Hb & _) Hba]; [|done|].
      { split_and!; [done|apply not_elem_of_nil..]. }
      specialize (IH Hb). lia. }
  assert (∀ a b, tc (edge g) a b → b ∈ all) as Htarget.
  { induction 1 as [a b Hab|a b c _ _ IH]; [by eapply Htargets|done]. }
  specialize (Hlt x x Hx (Htarget x x Hx)). lia.
Qed.

Lemma graphHasCycles_false_acyclic fuel :
  graphHasCycles fuel g = Some false → acyclic g.
Proof.
  intros Hrun. apply finished_ranked_acyclic.
  eapply while_nodes_false_finished; [done..|].
  exists (λ _, 0). intros x d (Hin & Hout & _). by destruct Hout.
Qed.

Lemma graphHasCycles_answer fuel b :
  graphHasCycles fuel g = Some b → (b = false ↔ acyclic g).
Proof.
  intros Hrun. split; [intros ->; by eapply graphHasCycles_false_acyclic|].
  intros Hacyc.
  pose proof (graphHasCycles_acyclic g (fuel `max` (length (nodes g) + 2)) Hacyc) as Hbig.
  apply (graphHasCycles_mono g fuel (fuel `max` (length (nodes g) + 2))) in Hrun; [|lia].
  rewrite Hbig in Hrun by lia. by injection Hrun.
Qed.
End cycle_detection_complete.

(** X6. On a built graph [graphHasCycles] has no wrong answer: whenever it
    returns, it returns [false] exactly when the graph has no directed
    cycle (and hence [true] exactly when it has one). *)
Theorem graphHasCycles_answer_is_right
    (defs : list AssetDefinition) (fuel : nat) (b : bool) :
  graphHasCycles fuel (buildGraphData defs) = Some b →
  (b = false ↔ acyclic (buildGraphData defs)).
Proof. apply graphHasCycles_answer, buildGraphData_targets. Qed.

Lemma graphHasCycles_answer_is_right_witness :
  acyclic (buildGraphData diamond) ∧ ¬ acyclic (buildGraphData cycle3).
Proof.
  split.
  - apply (graphHasCycles_answer_is_right diamond 6 false); [|done].
    vm_compute. reflexivity.
  - intros Hacyc.
    apply (graphHasCycles_answer_is_right cycle3 5 true) in Hacyc; [done|].
    vm_compute. reflexivity.
Defined.

(** ** The status map behind the cycle check *)

Lemma is_node_value g k :
  wf_nodes g → is_node g k →
  ∃ n, n ∈ JsObject.values (nodes g) ∧ Node.id n = k ∧
       JSON_stringify (path (Node.assetKey n)) = k.
Proof.
  intros Hwf [n Hn]%get_is_Some. apply get_Some_elem_of in Hn.
  exists n. split.
  - unfold JsObject.values. apply list_elem_of_fmap. by exists (k, n).
  - by apply Hwf.
Qed.

(** X7. Behind the cycle check the status computation always returns: if
    [graphHasCycles] returns on the built graph, the guarded expression
    [hasCycles ? {} : buildGraphComputeStatuses(graphData)] of the render
    callback yields a status map, which is empty when a cycle was reported
    and otherwise holds a status for every node of the graph. *)
Theorem render_computeStatuses_returns
    (defs : list AssetDefinition) (fuel0 : nat) (b : bool) :
  graphHasCycles fuel0 (buildGraphData defs) = Some b →
  ∃ N m,
    (∀ fuel, N ≤ fuel → render_computeStatuses fuel defs = Some m) ∧
    if b then m = ∅
    else ∀ k, is_node (buildGraphData defs) k → is_Some (m !! k).
Proof.
  intros Hgate. unfold render_computeStatuses. destruct b.
  - exists fuel0, ∅. split; [|done]. intros fuel Hfuel.
    by rewrite (graphHasCycles_mono _ _ _ _ Hfuel Hgate).
  - pose proof Hgate as Hacyc.
    apply graphHasCycles_false_acyclic in Hacyc; [|apply buildGraphData_targets].
    destruct (buildGraphComputeStatuses_acyclic _ Hacyc) as (N & m & Hrun & _ & _ & Hall).
    exists (N `max` fuel0), m. split.
    + intros fuel Hfuel.
      rewrite (graphHasCycles_mono _ fuel0 fuel _ ltac:(lia) Hgate). apply Hrun. lia.
    + intros k (n & Hn & _ & <-)%is_node_value; [|apply buildGraphData_wf_nodes].
      by apply Hall.
Qed.

Lemma render_computeStatuses_returns_witness :
  ∃ N m,
    (∀ fuel, N ≤ fuel → render_computeStatuses fuel diamond = Some m) ∧
    ∀ k, is_node (buildGraphData diamond) k → is_Some (m !! k).
Proof.
  apply (render_computeStatuses_returns diamond 6 false). vm_compute. reflexivity.
Defined.

Lemma status_rule_not_none timestamps upstream m id s :
  status_rule timestamps upstream m id s → s ≠ none.
Proof.
  unfold status_rule. destruct (has_newer_upstream _ _ _); [by intros ->|].
  by intros [[-> _]|[-> _]].
Qed.

(** X8. On an acyclic built graph the returned map gives every declared
    key a status, which is [none] exactly when the last definition with
    that key has no materialization; a key of the map that no definition
    declares (a dangling upstream id) has status [good]. *)
Theorem status_map_coverage (defs : list AssetDefinition) :
  acyclic (buildGraphData defs) →
  ∃ N m,
    (∀ fuel, N ≤ fuel → buildGraphComputeStatuses fuel (buildGraphData defs) = Some m) ∧
    (∀ k def, last_definition defs k = Some def →
       ∃ s, m !! k = Some s ∧ (s = none ↔ assetMaterializations def = [])) ∧
    (∀ k s, last_definition defs k = None → m !! k = Some s → s = good).
Proof.
  intros Hacyc. set (g := buildGraphData defs) in *.
  pose proof (buildGraphData_wf_nodes defs) as Hwf. fold g in Hwf.
  destruct (buildGraphComputeStatuses_acyclic g Hacyc) as (N & m & Hrun & Hok & Hsub & Hall).
  exists N, m. split_and!; [done| |].
  - intros k def Hlast.
    pose proof (get_nodes_buildGraphData defs k) as Hget. rewrite Hlast in Hget.
    apply get_Some_elem_of in Hget.
    assert (node_of def ∈ JsObject.values (nodes g)) as Hn.
    { unfold JsObject.values. apply list_elem_of_fmap. by exists (k, node_of def). }
    apply last_definition_Some in Hlast as [_ <-].
    destruct (decide (assetMaterializations def = [])) as [Hmats|Hmats].
    + exists none. split; [|done].
      eapply lookup_weaken; [|done]. by apply (mark_unmaterialized_node g (node_of def)).
    + destruct (materialized_status_rule g m (node_of def)) as (s & Hs & Hrule); [done..|].
      exists s. split; [done|]. apply status_rule_not_none in Hrule. naive_solver.
  - intros k s Hlast Hs.
    eapply (dangling_status g m k); [done|apply buildGraphData_targets|done| |done].
    unfold is_node. rewrite <- get_is_Some. unfold g.
    rewrite get_nodes_buildGraphData, Hlast. by intros [? ?].
Qed.

Lemma status_map_coverage_witness :
  ∃ N m,
    (∀ fuel, N ≤ fuel → buildGraphComputeStatuses fuel (buildGraphData dangling) = Some m) ∧
    (∀ k def, last_definition dangling k = Some def →
       ∃ s, m !! k = Some s ∧ (s = none ↔ assetMaterializations def = [])) ∧
    (∀ k s, last_definition dangling k = None → m !! k = Some s → s = good).
Proof.
  apply status_map_coverage.
  apply (ranked_acyclic (position [idD; idA; idB])). vm_compute. reflexivity.
Defined.

(** ** What [good] means *)

Section good.
Variable g : GraphData.
Variable m : gmap string Status.
Hypothesis Hok :
  statuses_ok (collect_timestamps g) (collect_upstream g) (mark_unmaterialized g) m.

Lemma good_step x u :
  m !! x = Some good → edge g u x →
  m !! u = Some good ∧ ¬ newer_upstream g x u.
Proof.
  intros Hx Hed. destruct (Hok _ _ Hx) as [[? _]%mark_unmaterialized_inv|Hrule]; [done|].
  unfold status_rule in Hrule.
  destruct (has_newer_upstream _ _ _) eqn:Hnewer; [done|].
  destruct Hrule as [[? _]|[_ Hall]]; [done|]. split.
  - by apply Hall, upstream_of_collect.
  - intros Hnew. assert (∃ u, newer_upstream g x u) as Hex by eauto.
    apply has_newer_upstream_spec in Hex. congruence.
Qed.

Lemma good_upstream_closed x id :
  m !! id = Some good → rtc (edge g) x id → m !! x = Some good.
Proof.
  intros Hid Hreach. induction Hreach as [|x y z Hxy _ IH]; [done|].
  by eapply good_step; [apply IH|].
Qed.

Lemma good_fresh_cone id :
  mark_unmaterialized g ⊆ m → m !! id = Some good → fresh_cone g id.
Proof.
  intros Hsub Hid x Hx%(good_upstream_closed _ _ Hid). split.
  - intros (n & Hn & <- & Hmats).
    pose proof (mark_unmaterialized_node g n Hn Hmats) as Hnone.
    eapply lookup_weaken in Hnone; [|done]. congruence.
  - intros u [Hed Hgt]. by destruct (good_step x u Hx Hed) as [_ []].
Qed.

Lemma fresh_cone_good id :
  wf_nodes g → targets_are_nodes g → acyclic g →
  (∀ n, n ∈ JsObject.values (nodes g) →
     is_Some (m !! JSON_stringify (path (Node.assetKey n)))) →
  is_node g id → fresh_cone g id → m !! id = Some good.
Proof.
  intros Hwf Htargets Hacyc Hall.
  induction (acyclic_sn g id Hacyc) as [id _ IH]. intros Hnode Hfresh.
  destruct (is_node_value g id Hwf Hnode) as (n & Hn & Hid & _).
  destruct (Hfresh id) as [Hmat Hnewer]; [done|].
  destruct (materialized_status_rule g m n) as (s & Hs & Hrule); [done..| |].
  { intros Hmats. apply Hmat. by exists n. }
  rewrite Hid in Hs, Hrule. rewrite Hs. f_equal.
  unfold status_rule in Hrule.
  destruct (has_newer_upstream _ _ _) eqn:Hhas.
  { apply has_newer_upstream_spec in Hhas as [u Hu]. by destruct (Hnewer u). }
  destruct Hrule as [(_ & u & s' & Hu & Hs' & Hne)|[-> _]]; [|done].
  destruct Hne.
  destruct (decide (u ∈ JsObject.keys (nodes g))) as [Hunode|Hdangling].
  - assert (m !! u = Some good) as Hgood; [|congruence].
    apply IH; [done..|].
    intros y Hy. apply Hfresh. eapply rtc_r; [done|]. by apply upstream_of_collect.
  - by eapply (dangling_status g m u).
Qed.

Lemma not_good_downstream x d s :
  m !! x = Some s → s ≠ good → rtc (edge g) x d → m !! d ≠ Some good.
Proof.
  intros Hx Hs Hreach Hd. apply (good_upstream_closed _ _ Hd) in Hreach. congruence.
Qed.
End good.

(** X9. On an acyclic built graph a node has status [good] exactly when its
    whole upstream cone is fresh: every node that reaches it along edges
    (itself included) is materialized, and no edge into any of them comes
    from an upstream with a strictly greater timestamp. *)
Theorem good_iff_fresh_cone (defs : list AssetDefinition) :
  acyclic (buildGraphData defs) →
  ∃ N m,
    (∀ fuel, N ≤ fuel → buildGraphComputeStatuses fuel (buildGraphData defs) = Some m) ∧
    ∀ id, is_node (buildGraphData defs) id →
      (m !! id = Some good ↔ fresh_cone (buildGraphData defs) id).
Proof.
  intros Hacyc.
  destruct (buildGraphComputeStatuses_acyclic _ Hacyc) as (N & m & Hrun & Hok & Hsub & Hall).
  exists N, m. split; [done|]. intros id Hnode. split.
  - by apply good_fresh_cone.
  - apply fresh_cone_good; try done.
    + apply buildGraphData_wf_nodes.
    + apply buildGraphData_targets.
Qed.

Lemma good_iff_fresh_cone_witness :
  ∃ N m,
    (∀ fuel, N ≤ fuel →
       buildGraphComputeStatuses fuel (buildGraphData (chain3 1 2 3)) = Some m) ∧
    ∀ id, is_node (buildGraphData (chain3 1 2 3)) id →
      (m !! id = Some good ↔ fresh_cone (buildGraphData (chain3 1 2 3)) id).
Proof.
  apply good_iff_fresh_cone.
  apply (ranked_acyclic alphabetical). vm_compute. reflexivity.
Defined.

(** X10. Staleness reaches everything downstream: on an acyclic graph, if
    the returned map records a status other than [good] for some id ([old],
    [downstream_from_old] or [none]), then no id reachable from it along
    edges is recorded as [good]. *)
Theorem staleness_propagates_downstream (g : GraphData) :
  acyclic g →
  ∃ N m,
    (∀ fuel, N ≤ fuel → buildGraphComputeStatuses fuel g = Some m) ∧
    ∀ x d s, m !! x = Some s → s ≠ good → rtc (edge g) x d → m !! d ≠ Some good.
Proof.
  intros Hacyc.
  destruct (buildGraphComputeStatuses_acyclic _ Hacyc) as (N & m & Hrun & Hok & _).
  exists N, m. split; [done|]. by apply not_good_downstream.
Qed.

Lemma staleness_propagates_downstream_witness :
  ∃ N m,
    (∀ fuel, N ≤ fuel → buildGraphComputeStatuses fuel (buildGraphData diamond) = Some m) ∧
    ∀ x d s, m !! x = Some s → s ≠ good → rtc (edge (buildGraphData diamond)) x d →
      m !! d ≠ Some good.
Proof.
  apply staleness_propagates_downstream.
  apply (ranked_acyclic alphabetical). vm_compute. reflexivity.
Defined.

(** ** [JSON.stringify] identifies asset keys *)

Lemma string_cons_app c (a b : string) : (String c a ++ b = String c (a ++ b))%string.
Proof. reflexivity. Qed.

Lemma string_nil_app (b : string) : ("" ++ b = b)%string.
Proof. reflexivity. Qed.

Lemma string_app_assoc (a b c : string) : ((a ++ b) ++ c = a ++ (b ++ c))%string.
Proof.
  induction a as [|x a IH]; [done|]. rewrite !string_cons_app. by f_equal.
Qed.

Lemma unquote_quote_code_unit c rest :
  unquote_code_unit (quote_code_unit c ++ rest) = Some (c, rest).
Proof. destruct c as [[] [] [] [] [] [] [] []]; reflexivity. Qed.

Lemma quote_json_string_body_inj s1 s2 rest1 rest2 :
  (quote_json_string_body s1 ++ String dquote rest1 =
   quote_json_string_body s2 ++ String dquote rest2)%string →
  s1 = s2 ∧ rest1 = rest2.
Proof.
  revert s2. induction s1 as [|c1 s1 IH]; intros [|c2 s2];
    cbn [quote_json_string_body]; rewrite ?string_nil_app, ?string_app_assoc.
  - by intros [= ->].
  - intros Heq%(f_equal unquote_code_unit).
    by rewrite unquote_quote_code_unit in Heq.
  - intros Heq%(f_equal unquote_code_unit).
    by rewrite unquote_quote_code_unit in Heq.
  - intros Heq%(f_equal unquote_code_unit).
    rewrite !unquote_quote_code_unit in Heq. injection Heq as -> Heq.
    by destruct (IH _ Heq) as [-> ->].
Qed.

Lemma quote_json_string_inj_app x y rest1 rest2 :
  (quote_json_string x ++ rest1 = quote_json_string y ++ rest2)%string →
  x = y ∧ rest1 = rest2.
Proof.
  unfold quote_json_string.
  rewrite !string_cons_app, !string_app_assoc, !string_cons_app, !string_nil_app.
  intros [= Heq]. by apply quote_json_string_body_inj.
Qed.

Lemma join_json_array_tail x p :
  (join "," (map quote_json_string (x :: p)) ++ "]" =
   quote_json_string x ++ json_array_tail p)%string.
Proof.
  revert x. induction p as [|y p IH]; intros x; [done|].
  change (join "," (map quote_json_string (x :: y :: p))) with
    (quote_json_string x ++ "," ++ join "," (map quote_json_string (y :: p)))%string.
  rewrite !string_app_assoc, IH. done.
Qed.

Lemma json_array_tail_inj p q : json_array_tail p = json_array_tail q → p = q.
Proof.
  revert q. induction p as [|x p IH]; intros [|y q]; cbn [json_array_tail];
    rewrite ?string_cons_app, ?string_nil_app; try done.
  intros [= Heq].
  rewrite !string_app_assoc, !string_cons_app, !string_nil_app in Heq.
  apply quote_json_string_body_inj in Heq as [-> Heq].
  by rewrite (IH _ Heq).
Qed.

(** X11. [JSON.stringify] is injective on paths: two asset keys get the
    same node id only if their path segments are the same, so distinct
    assets never share a node and an edge never attaches to the node of
    another asset. *)
Theorem JSON_stringify_inj (p q : list string) :
  JSON_stringify p = JSON_stringify q → p = q.
Proof.
  unfold JSON_stringify. rewrite !string_cons_app, !string_nil_app. intros [= Heq].
  destruct p as [|x p], q as [|y q]; [done| | |].
  - rewrite join_json_array_tail in Heq. unfold quote_json_string in Heq.
    rewrite string_cons_app in Heq. done.
  - rewrite join_json_array_tail in Heq. unfold quote_json_string in Heq.
    rewrite string_cons_app in Heq. done.
  - rewrite !join_json_array_tail in Heq.
    apply quote_json_string_inj_app in Heq as [-> Heq].
    by rewrite (json_array_tail_inj _ _ Heq).
Qed.

Lemma JSON_stringify_inj_witness :
  [("a" ++ String dquote ",")%string; "b"] = [("a" ++ String dquote ",")%string; "b"].
Proof. apply JSON_stringify_inj. reflexivity. Defined.

Example JSON_stringify_separates_segments :
  JSON_stringify ["a"; "b"] ≠
  JSON_stringify [("a" ++ String dquote "," ++ String dquote "b")%string].
Proof. vm_compute. discriminate. Qed.

(** ** Node dimensions: bounds *)

(** X12. The box of a node is at least 275 wide and between 40 and 109
    high; the minimum width applies to joined path strings of up to 26 code
    units, and from 27 code units on the width is 9.5 times the length
    plus 25. *)
Theorem getNodeDimensions_bounds (def : AssetDefinition) :
  ∃ dims, getNodeDimensions def = inr dims ∧
    (275 <= width dims)%Q ∧
    (40 ≤ height dims ≤ 109)%Z ∧
    (String.length (join ">" (path (assetKey def))) ≤ 26 → (width dims == 275)%Q) ∧
    (27 ≤ String.length (join ">" (path (assetKey def))) →
     (width dims ==
        9.5 * inject_Z (Z.of_nat (String.length (join ">" (path (assetKey def))))) + 25)%Q).
Proof.
  destruct (getNodeDimensions_height def) as (w & -> & ->).
  eexists. split; [reflexivity|]. cbn [width height].
  set (L := String.length (join ">" (path (assetKey def)))).
  refine (conj _ (conj _ (conj _ _))).
  - apply (Qle_trans _ (250 + 25)); [done|].
    apply Qplus_le_compat; [apply Q.le_max_l|apply Qle_refl].
  - destruct (description def) as [text|]; destruct (assetMaterializations def) as [|latest ?];
      repeat case_decide; try destruct (runOrError latest); lia.
  - intros HL. transitivity (250 + 25)%Q; [|done].
    apply Qplus_inj_r, Q.max_l.
    unfold Qle, Qmult, inject_Z; simpl. lia.
  - intros HL. apply Qplus_inj_r. rewrite Qmult_comm. apply Q.max_r.
    unfold Qle, Qmult, inject_Z; simpl. lia.
Qed.

Lemma getNodeDimensions_bounds_witness :
  ∃ dims, getNodeDimensions (asset "A" [] []) = inr dims ∧ (width dims == 275)%Q.
Proof.
  destruct (getNodeDimensions_bounds (asset "A" [] [])) as (dims & Hdims & _ & _ & Hmin & _).
  exists dims. split; [done|]. apply Hmin. vm_compute. lia.
Defined.

(** ** Highlighting the nodes of the selected pipeline *)

Lemma runForDisplay_pipelineName def :
  runForDisplay def =
  match assetMaterializations def with
  | [] => inl TypeError
  | latest :: _ =>
      inr (match runOrError latest with
           | PipelineRun _ _ _ _ _ as run => Some run
           | _ => None
           end)
  end.
Proof.
  unfold runForDisplay. destruct (assetMaterializations def) as [|latest ?]; [done|].
  simpl. by destruct (runOrError latest).
Qed.

Lemma pipelineName_of_runForDisplay def run :
  runForDisplay def = inr run → pipelineName_of run = latest_pipelineName def.
Proof.
  rewrite runForDisplay_pipelineName. unfold latest_pipelineName.
  destruct (assetMaterializations def) as [|latest ?]; [done|].
  intros [= <-]. by destruct (runOrError latest).
Qed.

Lemma filter_same_pipeline_throws ns name :
  filter_same_pipeline ns name = inl TypeError ↔
  ∃ n, n ∈ ns ∧ assetMaterializations (Node.definition n) = [].
Proof.
  induction ns as [|n ns IH]; simpl.
  - split; [done|]. by intros (? & ?%elem_of_nil & _).
  - rewrite runForDisplay_pipelineName.
    destruct (assetMaterializations (Node.definition n)) as [|latest ?] eqn:Hmats.
    + split; [|done]. intros _. exists n. split; [left|done].
    + destruct (filter_same_pipeline ns name) as [[]|kept].
      * split; [|done]. intros _. destruct (proj1 IH) as (n' & ? & ?); [done|].
        exists n'. split; [by right|done].
      * split; [done|]. intros (n' & [->|Hin]%elem_of_cons & Hn'); [congruence|].
        assert (inr kept = inl TypeError :> Exception + list Node.t) as Habs; [|done].
        apply IH. by exists n'.
Qed.

Lemma filter_same_pipeline_returns ns name kept :
  filter_same_pipeline ns name = inr kept →
  kept = filter (λ n, latest_pipelineName (Node.definition n) = Some name) ns.
Proof.
  revert kept. induction ns as [|n ns IH]; intros kept; simpl; [by intros [= <-]|].
  destruct (runForDisplay (Node.definition n)) as [|run] eqn:Hrun; [done|].
  destruct (filter_same_pipeline ns name) as [|kept']; [done|].
  intros [= <-]. rewrite filter_cons, (IH kept') by done.
  rewrite (pipelineName_of_runForDisplay _ _ Hrun).
  by case_bool_decide; case_decide.
Qed.

(** X13. The highlight list [samePipelineNodes] of the render callback
    throws a [TypeError] exactly when a node is selected and either the
    selected node has no materialization, or its latest run is a pipeline
    run with a non-empty name and some node of the graph has no
    materialization. When it returns, it is the list of the nodes whose
    latest run is a pipeline run of the selected node's (non-empty)
    pipeline name, in node order, and empty without such a name. *)
Theorem samePipelineNodes_behaviour (g : GraphData) (nodeSelection : option Node.t) :
  (samePipelineNodes g nodeSelection = inl TypeError ↔
   ∃ node, nodeSelection = Some node ∧
     (assetMaterializations (Node.definition node) = [] ∨
      ∃ name, latest_pipelineName (Node.definition node) = Some name ∧ name ≠ "" ∧
        ∃ n, n ∈ JsObject.values (nodes g) ∧
             assetMaterializations (Node.definition n) = [])) ∧
  (∀ kept, samePipelineNodes g nodeSelection = inr kept →
     kept =
       match nodeSelection ≫= (λ node, latest_pipelineName (Node.definition node)) with
       | Some name =>
           if decide (name = "") then []
           else filter (λ n, latest_pipelineName (Node.definition n) = Some name)
                  (JsObject.values (nodes g))
       | None => []
       end).
Proof.
  unfold samePipelineNodes, nodeSelectionPipeline.
  destruct nodeSelection as [node|]; simpl.
  2:{ split; [|by intros kept [= <-]]. split; [done|]. by intros (? & ? & _). }
  destruct (runForDisplay (Node.definition node)) as [[]|run] eqn:Hrun.
  - rewrite runForDisplay_pipelineName in Hrun.
    destruct (assetMaterializations (Node.definition node)) as [|latest ?] eqn:Hmats; [|done].
    split; [|done]. split; [|done]. intros _. exists node. split; [done|by left].
  - pose proof (pipelineName_of_runForDisplay _ _ Hrun) as Hname. rewrite <- Hname.
    assert (assetMaterializations (Node.definition node) ≠ []) as Hmats.
    { intros Hmats. rewrite runForDisplay_pipelineName, Hmats in Hrun. done. }
    destruct (pipelineName_of run) as [name|]; simpl.
    2:{ split; [|by intros kept [= <-]]. split; [done|].
        intros (? & [= <-] & [?|(? & ? & _)]); congruence. }
    destruct (String.eqb_spec name "") as [->|Hne]; simpl.
    { split; [|by intros kept [= <-]]. split; [done|].
      intros (? & [= <-] & [?|(? & ? & ? & _)]); congruence. }
    rewrite decide_False by done. split.
    + rewrite filter_same_pipeline_throws. split.
      * intros Hex. exists node. split; [done|]. right. by exists name.
      * intros (? & [= <-] & [?|(? & _ & _ & ?)]); [congruence|done].
    + apply filter_same_pipeline_returns.
Qed.

Lemma samePipelineNodes_behaviour_witness :
  samePipelineNodes (buildGraphData diamond) None = inr [] ∧
  samePipelineNodes (buildGraphData diamond) (Some (node_of (asset "B" [dep "in" "A"] [])))
    = inl TypeError.
Proof.
  destruct (samePipelineNodes_behaviour (buildGraphData diamond) None) as [_ Hret].
  destruct (samePipelineNodes_behaviour (buildGraphData diamond)
              (Some (node_of (asset "B" [dep "in" "A"] [])))) as [Hthrow _].
  split.
  - destruct (samePipelineNodes (buildGraphData diamond) None) as [e|kept] eqn:Hsame.
    + vm_compute in Hsame. discriminate.
    + by rewrite (Hret kept).
  - apply Hthrow. eexists. split; [done|]. by left.
Defined.

(** ** The order of the definitions does not matter *)

Lemma NoDup_map_elem_inj {A B} (f : A → B) (l : list A) x y :
  NoDup (map f l) → x ∈ l → y ∈ l → f x = f y → x = y.
Proof.
  induction l as [|a l IH]; simpl; [by intros _ ?%elem_of_nil|].
  rewrite NoDup_cons. intros [Ha Hnd] [->|Hx]%elem_of_cons [->|Hy]%elem_of_cons Heq.
  - done.
  - destruct Ha. rewrite Heq. apply list_elem_of_In, in_map. by apply list_elem_of_In.
  - destruct Ha. rewrite <- Heq. apply list_elem_of_In, in_map. by apply list_elem_of_In.
  - by apply IH.
Qed.

Lemma last_definition_unique defs k def :
  NoDup (map (λ def, JSON_stringify (path (assetKey def))) defs) →
  def ∈ defs → JSON_stringify (path (assetKey def)) = k →
  last_definition defs k = Some def.
Proof.
  intros Hnd Hin <-. destruct (last_definition_is_Some defs def Hin) as [def' Hlast].
  rewrite Hlast. f_equal. apply last_definition_Some in Hlast as [Hin' Hkey].
  by eapply NoDup_map_elem_inj.
Qed.

Lemma last_definition_perm defs1 defs2 k :
  defs1 ≡ₚ defs2 →
  NoDup (map (λ def, JSON_stringify (path (assetKey def))) defs1) →
  last_definition defs1 k = last_definition defs2 k.
Proof.
  intros Hperm Hnd1.
  assert (NoDup (map (λ def, JSON_stringify (path (assetKey def))) defs2)) as Hnd2.
  { eapply NoDup_Permutation_proper; [|done]. symmetry. by apply Permutation_map. }
  destruct (last_definition defs1 k) as [def|] eqn:H1.
  - apply last_definition_Some in H1 as [Hin Hkey]. symmetry.
    apply last_definition_unique; [done| |done]. by rewrite <- Hperm.
  - destruct (last_definition defs2 k) as [def|] eqn:H2; [|done].
    apply last_definition_Some in H2 as [Hin Hkey]. rewrite <- Hperm in Hin.
    by rewrite (last_definition_unique defs1 k def) in H1.
Qed.

Section two_graphs.
Variables g1 g2 : GraphData.
Variables m1 m2 : gmap string Status.
Hypothesis Hedge : ∀ u d, edge g1 u d ↔ edge g2 u d.
Hypothesis Hnode : ∀ k, is_node g1 k ↔ is_node g2 k.
Hypothesis Hts : ∀ k, collect_timestamps g1 !! k = collect_timestamps g2 !! k.
Hypothesis Hmark : ∀ k, mark_unmaterialized g1 !! k = mark_unmaterialized g2 !! k.
Hypothesis Hwf1 : wf_nodes g1.
Hypothesis Hwf2 : wf_nodes g2.
Hypothesis Htargets1 : targets_are_nodes g1.
Hypothesis Htargets2 : targets_are_nodes g2.
Hypothesis Hacyc : acyclic g1.
Hypothesis Hok1 :
  statuses_ok (collect_timestamps g1) (collect_upstream g1) (mark_unmaterialized g1) m1.
Hypothesis Hok2 :
  statuses_ok (collect_timestamps g2) (collect_upstream g2) (mark_unmaterialized g2) m2.
Hypothesis Hsub1 : mark_unmaterialized g1 ⊆ m1.
Hypothesis Hsub2 : mark_unmaterialized g2 ⊆ m2.
Hypothesis Hall1 : ∀ k, is_node g1 k → is_Some (m1 !! k).
Hypothesis Hall2 : ∀ k, is_node g2 k → is_Some (m2 !! k).

Lemma has_newer_upstream_agree k :
  has_newer_upstream (collect_timestamps g1) (collect_upstream g1) k =
  has_newer_upstream (collect_timestamps g2) (collect_upstream g2) k.
Proof.
  apply eq_true_iff_eq. rewrite !has_newer_upstream_spec.
  unfold newer_upstream. setoid_rewrite Hedge. by setoid_rewrite Hts.
Qed.

Lemma node_statuses_agree k : is_node g1 k → m1 !! k = m2 !! k.
Proof.
  induction (acyclic_sn g1 k Hacyc) as [k _ IH]. intros Hk.
  destruct (Hall1 k Hk) as [s1 Hs1]. destruct (Hall2 k (proj1 (Hnode k) Hk)) as [s2 Hs2].
  rewrite Hs1, Hs2. f_equal.
  destruct (Hok1 _ _ Hs1) as [Hm1|Hrule1].
  { rewrite Hmark in Hm1. eapply lookup_weaken in Hm1; [|done]. congruence. }
  destruct (Hok2 _ _ Hs2) as [Hm2|Hrule2].
  { rewrite <- Hmark in Hm2. eapply lookup_weaken in Hm2; [|done]. congruence. }
  unfold status_rule in Hrule1, Hrule2. rewrite <- has_newer_upstream_agree in Hrule2.
  destruct (has_newer_upstream _ _ _); [congruence|].
  destruct Hrule1 as [(-> & u & s' & Hu & Hs' & Hne)|[-> Hgood1]];
    destruct Hrule2 as [(-> & u2 & s2' & Hu2 & Hs2' & Hne2)|[-> Hgood2]]; try done.
  - destruct Hne. apply upstream_of_collect in Hu.
    pose proof (Hgood2 u (proj2 (upstream_of_collect g2 k u) (proj1 (Hedge u k) Hu))) as Hg.
    destruct (decide (u ∈ JsObject.keys (nodes g1))) as [Hunode|Hdangling].
    + rewrite (IH u) in Hs'; [congruence| |done]. by apply upstream_of_collect.
    + by eapply (dangling_status g1 m1 u).
  - destruct Hne2. apply upstream_of_collect in Hu2.
    pose proof (proj2 (Hedge u2 k) Hu2) as Hu1.
    pose proof (Hgood1 u2 (proj2 (upstream_of_collect g1 k u2) Hu1)) as Hg.
    destruct (decide (u2 ∈ JsObject.keys (nodes g1))) as [Hunode|Hdangling].
    + rewrite <- (IH u2) in Hs2'; [congruence| |done]. by apply upstream_of_collect.
    + eapply (dangling_status g2 m2 u2); [done..| |done].
      intros Hn. by apply Hdangling, Hnode.
Qed.
End two_graphs.

(** X14. The statuses do not depend on the order in which the definitions
    are listed: for two lists that are permutations of each other, with
    pairwise distinct asset keys and an acyclic graph, both status
    computations return and give every node the same status. *)
Theorem statuses_independent_of_definition_order (defs1 defs2 : list AssetDefinition) :
  defs1 ≡ₚ defs2 →
  NoDup (map (λ def, JSON_stringify (path (assetKey def))) defs1) →
  acyclic (buildGraphData defs1) →
  ∃ N m1 m2,
    (∀ fuel, N ≤ fuel →
       buildGraphComputeStatuses fuel (buildGraphData defs1) = Some m1 ∧
       buildGraphComputeStatuses fuel (buildGraphData defs2) = Some m2) ∧
    ∀ k, is_node (buildGraphData defs1) k → m1 !! k = m2 !! k.
Proof.
  intros Hperm Hnd Hacyc1.
  assert (∀ u d, edge (buildGraphData defs1) u d ↔ edge (buildGraphData defs2) u d) as Hedge.
  { intros u d. rewrite !edge_buildGraphData. by setoid_rewrite Hperm. }
  assert (∀ k, is_node (buildGraphData defs1) k ↔ is_node (buildGraphData defs2) k) as Hnode.
  { intros k. unfold is_node. rewrite <- !get_is_Some, !get_nodes_buildGraphData.
    by rewrite (last_definition_perm defs1 defs2). }
  assert (acyclic (buildGraphData defs2)) as Hacyc2.
  { intros x Hx. apply (Hacyc1 x). eapply tc_congruence with (f := λ y, y); [|done].
    intros a b. apply Hedge. }
  destruct (buildGraphComputeStatuses_acyclic _ Hacyc1)
    as (N1 & m1 & Hrun1 & Hok1 & Hsub1 & Hall1).
  destruct (buildGraphComputeStatuses_acyclic _ Hacyc2)
    as (N2 & m2 & Hrun2 & Hok2 & Hsub2 & Hall2).
  exists (N1 `max` N2), m1, m2. split.
  - intros fuel Hfuel. split; [apply Hrun1|apply Hrun2]; lia.
  - assert (∀ k, collect_timestamps (buildGraphData defs1) !! k =
                 collect_timestamps (buildGraphData defs2) !! k) as Hts.
    { intros k. rewrite !collect_timestamps_buildGraphData.
      by rewrite (last_definition_perm defs1 defs2). }
    assert (∀ k, mark_unmaterialized (buildGraphData defs1) !! k =
                 mark_unmaterialized (buildGraphData defs2) !! k) as Hmark.
    { intros k. rewrite !mark_unmaterialized_buildGraphData.
      by rewrite (last_definition_perm defs1 defs2). }
    assert (∀ k, is_node (buildGraphData defs1) k → is_Some (m1 !! k)) as Hall1'.
    { intros k (n & Hn & _ & <-)%is_node_value; [|apply buildGraphData_wf_nodes].
      by apply Hall1. }
    assert (∀ k, is_node (buildGraphData defs2) k → is_Some (m2 !! k)) as Hall2'.
    { intros k (n & Hn & _ & <-)%is_node_value; [|apply buildGraphData_wf_nodes].
      by apply Hall2. }
    exact (node_statuses_agree (buildGraphData defs1) (buildGraphData defs2) m1 m2
             Hedge Hnode Hts Hmark
             (buildGraphData_wf_nodes defs1) (buildGraphData_wf_nodes defs2)
             (buildGraphData_targets defs1) (buildGraphData_targets defs2)
             Hacyc1 Hok1 Hok2 Hsub1 Hsub2 Hall1' Hall2').
Qed.

Lemma statuses_independent_of_definition_order_witness :
  ∃ N m1 m2,
    (∀ fuel, N ≤ fuel →
       buildGraphComputeStatuses fuel (buildGraphData (chain3 10 5 20)) = Some m1 ∧
       buildGraphComputeStatuses fuel (buildGraphData (reverse (chain3 10 5 20))) = Some m2) ∧
    ∀ k, is_node (buildGraphData (chain3 10 5 20)) k → m1 !! k = m2 !! k.
Proof.
  apply statuses_independent_of_definition_order.
  - symmetry. apply reverse_Permutation.
  - apply (bool_decide_unpack (NoDup [idA; idB; idC])). vm_compute. exact I.
  - apply (ranked_acyclic alphabetical). vm_compute. reflexivity.
Defined.

(** ** The node table of a duplicate-free definition list *)

Lemma set_fresh {V} (o : JsObject.t V) k v :
  k ∉ JsObject.keys o → JsObject.set o k v = o ++ [(k, v)].
Proof.
  induction o as [|[k0 v0] o IH]; simpl; [done|].
  rewrite not_elem_of_cons. intros [Hne Hk].
  destruct (String.eqb_spec k0 k); [done|]. by rewrite IH.
Qed.

Lemma nodes_fold_add_definition_fresh defs acc :
  NoDup (JsObject.keys (nodes acc) ++
         map (λ def, JSON_stringify (path (assetKey def))) defs) →
  nodes (fold_left add_definition defs acc) =
  nodes acc ++ map (λ def, (JSON_stringify (path (assetKey def)), node_of def)) defs.
Proof.
  revert acc. induction defs as [|def defs IH]; intros acc Hnd; simpl.
  - by rewrite app_nil_r.
  - simpl in Hnd. apply NoDup_app in Hnd as (Hacc & Hdisj & [Hdef Hdefs]%NoDup_cons).
    assert (JSON_stringify (path (assetKey def)) ∉ JsObject.keys (nodes acc)) as Hfresh.
    { intros Hin. apply (Hdisj _ Hin). left. }
    rewrite IH; simpl; rewrite set_fresh by done.
    + by rewrite <- app_assoc.
    + unfold JsObject.keys. rewrite map_app. simpl. rewrite <- app_assoc. simpl.
      apply NoDup_app. split_and!; [done| |by apply NoDup_cons].
      intros k Hk [->|Hin]%elem_of_cons; [done|]. apply (Hdisj _ Hk). by right.
Qed.

(** X15. For a definition list with pairwise distinct asset keys the node
    table lists one node per definition, in the order of the list, each
    under the serialization of its key: [Object.values(graphData.nodes)]
    enumerates the definitions in their given order. *)
Theorem buildGraphData_nodes_in_definition_order (defs : list AssetDefinition) :
  NoDup (map (λ def, JSON_stringify (path (assetKey def))) defs) →
  nodes (buildGraphData defs) =
    map (λ def, (JSON_stringify (path (assetKey def)), node_of def)) defs ∧
  map Node.definition (JsObject.values (nodes (buildGraphData defs))) = defs.
Proof.
  intros Hnd. unfold buildGraphData.
  rewrite nodes_fold_add_definition_fresh by done. simpl. split; [done|].
  unfold JsObject.values. rewrite !map_map. simpl. apply map_id.
Qed.

Lemma buildGraphData_nodes_in_definition_order_witness :
  map Node.definition (JsObject.values (nodes (buildGraphData diamond))) = diamond.
Proof.
  apply buildGraphData_nodes_in_definition_order.
  apply (bool_decide_unpack (NoDup [idA; idB; idC; idD])). vm_compute. exact I.
Defined.


(** * Repeated invocations on a store *)

Section store.
Implicit Types (σ : Store) (l : loc).

(** A loop whose body only updates the table at [l] folds the update over
    the list. *)
Lemma for_each_modify {A V} (view : Object → option V) (make : V → Object) l
    (step : A → V → V) xs σ v :
  (∀ v, view (make v) = Some v) →
  σ !! l = Some (make v) →
  for_each xs (λ x, modify view make l (step x)) σ =
  Some (tt, <[l := make (fold_left (λ v x, step x v) xs v)]> σ).
Proof.
  intros Hview. revert σ v. induction xs as [|x xs IH]; intros σ v Hl;
    cbn [for_each fold_left].
  - unfold ret. by rewrite insert_id.
  - unfold bind, modify. rewrite Hl. cbn [mbind option_bind]. rewrite Hview.
    rewrite (IH _ (step x v)) by apply lookup_insert_eq.
    by rewrite insert_insert_eq.
Qed.

Lemma some_run_pure {A} (f : A → Run bool) (g : A → bool) xs σ :
  (∀ x, f x σ = Some (g x, σ)) → some_run xs f σ = Some (existsb g xs, σ).
Proof.
  intros Hf. induction xs as [|x xs IH]; simpl; [done|].
  unfold bind. rewrite Hf. by destruct (g x).
Qed.

(** The loop of [buildGraphData] leaves at [ln] and [ld] the tables that
    folding [add_definition] gives. *)
Lemma build_loop ln ld defs σ ns ds :
  ln ≠ ld →
  σ !! ln = Some (ONodes ns) → σ !! ld = Some (ODownstream ds) →
  for_each defs
    (λ definition,
       let assetKeyJson := JSON_stringify (path (assetKey definition)) in
       modify as_nodes ONodes ln
         (λ o, JsObject.set o assetKeyJson
                 {| Node.id := assetKeyJson;
                    Node.assetKey := assetKey definition;
                    Node.definition := definition |}) >>
       for_each (dependencies definition)
         (λ dependency,
            modify as_downstream ODownstream ld
              (λ o, add_dependency assetKeyJson o dependency)))%run σ =
  Some (tt,
        <[ld := ODownstream
                  (downstream (fold_left add_definition defs
                                 {| nodes := ns; downstream := ds |}))]>
          (<[ln := ONodes
                     (nodes (fold_left add_definition defs
                               {| nodes := ns; downstream := ds |}))]> σ)).
Proof.
  intros Hne. revert σ ns ds. induction defs as [|def defs IH]; intros σ ns ds Hn Hd.
  - cbn [for_each fold_left nodes downstream]. unfold ret.
    rewrite (insert_id σ ln) by done. by rewrite insert_id.
  - cbn [for_each fold_left]. unfold bind at 1. unfold bind at 1.
    unfold modify at 1. rewrite Hn. cbn [mbind option_bind as_nodes].
    rewrite (for_each_modify as_downstream ODownstream ld
               (λ dependency o, add_dependency _ o dependency) _ _ ds); [|done|].
    2:{ by rewrite lookup_insert_ne. }
    rewrite (IH _ (nodes (add_definition {| nodes := ns; downstream := ds |} def))
                  (downstream (add_definition {| nodes := ns; downstream := ds |} def))).
    + f_equal. f_equal. apply map_eq. intros i.
      rewrite !lookup_insert. by repeat case_decide.
    + rewrite lookup_insert_ne by done. apply lookup_insert_eq.
    + apply lookup_insert_eq.
Qed.
Section tables.
Variables (lt ls lu : loc) (ts : gmap string Q) (up : gmap string (list string)).
Hypothesis Hlt : ls ≠ lt.
Hypothesis Hlu : ls ≠ lu.

Lemma holds_insert σ st st' : holds lt ls lu ts up σ st → holds lt ls lu ts up (<[ls := OStatuses st']> σ) st'.
Proof.
  intros (? & ? & ?). split_and!; [by rewrite lookup_insert_ne..|apply lookup_insert_eq].
Qed.

(** [findComputeStatusForId] on the store computes what the store-free
    function computes from the memo table held at [ls], and changes the
    store at [ls] only. *)
Lemma find_store_refines fuel id σ st :
  holds lt ls lu ts up σ st →
  findComputeStatusForId_store fuel lt ls lu id σ =
  match findComputeStatusForId fuel ts st up id with
  | Some (s, st') => Some (s, <[ls := OStatuses st']> σ)
  | None => None
  end.
Proof.
  revert id σ st. induction fuel as [|fuel IH]; intros id σ st Hσ; [done|].
  pose proof Hσ as (Hts & Hup & Hst).
  cbn [findComputeStatusForId_store findComputeStatusForId].
  unfold bind at 1, read at 1. rewrite Hts. cbn [mbind option_bind as_timestamps].
  unfold bind at 1, read at 1. rewrite Hup. cbn [mbind option_bind as_upstream].
  unfold bind at 1, read at 1. rewrite Hst. cbn [mbind option_bind as_statuses].
  destruct (st !! id) as [s|] eqn:Hid.
  { unfold ret. by rewrite insert_id. }
  unfold bind at 1.
  rewrite (some_run_pure _ (λ uid, js_gt (ts !! uid) (ts !! id))).
  2:{ intros uid. unfold bind, read, ret. by rewrite Hts. }
  destruct (existsb _ _).
  { unfold bind at 1, ret at 1. unfold bind at 1, modify at 1.
    rewrite Hst. cbn [mbind option_bind as_statuses].
    unfold bind, read. rewrite lookup_insert_eq. cbn [mbind option_bind as_statuses].
    by rewrite lookup_insert_eq. }
  unfold bind at 1.
  assert (∀ xs σ st, holds lt ls lu ts up σ st →
    some_run xs
      (λ uid,
         let* s := findComputeStatusForId_store fuel lt ls lu uid in
         ret (bool_decide (s ≠ good)))%run σ =
    match
      some_st
        (λ statuses uid,
           match findComputeStatusForId fuel ts statuses up uid with
           | None => None
           | Some (s, statuses') => Some (bool_decide (s ≠ good), statuses')
           end) xs st
    with
    | Some (b, st') => Some (b, <[ls := OStatuses st']> σ)
    | None => None
    end) as Hsome.
  { clear -IH Hlt Hlu. induction xs as [|x xs IHxs]; intros σ st Hσ; cbn [some_run some_st].
    - unfold ret. destruct Hσ as (_ & _ & ?). by rewrite insert_id.
    - unfold bind at 1. unfold bind at 1. rewrite (IH _ _ _ Hσ).
      destruct (findComputeStatusForId fuel ts st up x) as [[s st1]|]; [|done].
      unfold ret at 1. case_bool_decide; [done|].
      rewrite (IHxs _ st1) by (by eapply holds_insert).
      destruct (some_st _ _ _) as [[b st2]|]; [|done]. by rewrite insert_insert_eq. }
  rewrite (Hsome _ _ _ Hσ). clear Hsome.
  destruct (some_st _ _ _) as [[stale st1]|]; [|done].
  unfold bind at 1, modify at 1. rewrite lookup_insert_eq. cbn [mbind option_bind as_statuses].
  unfold bind, read. rewrite lookup_insert_eq. cbn [mbind option_bind as_statuses].
  rewrite lookup_insert_eq, !insert_insert_eq. by destruct stale.
Qed.

Lemma compute_loop_refines fuel assets σ st :
  holds lt ls lu ts up σ st →
  for_each assets
    (λ asset,
       let id := JSON_stringify (path (Node.assetKey asset)) in
       let* s := findComputeStatusForId_store fuel lt ls lu id in
       modify as_statuses OStatuses ls (λ m, <[id := s]> m))%run σ =
  match compute_each fuel ts up assets st with
  | Some m => Some (tt, <[ls := OStatuses m]> σ)
  | None => None
  end.
Proof.
  revert σ st. induction assets as [|a assets IH]; intros σ st Hσ; cbn [for_each compute_each].
  - unfold ret. destruct Hσ as (_ & _ & ?). by rewrite insert_id.
  - unfold bind at 1. unfold bind at 1. rewrite (find_store_refines _ _ _ _ Hσ).
    destruct (findComputeStatusForId fuel ts st up _) as [[s st1]|]; [|done].
    unfold modify. rewrite lookup_insert_eq. cbn [mbind option_bind as_statuses].
    rewrite insert_insert_eq.
    rewrite (IH _ (<[JSON_stringify (path (Node.assetKey a)) := s]> st1))
      by (by eapply holds_insert).
    destruct (compute_each _ _ _ _ _); [|done]. by rewrite insert_insert_eq.
Qed.
End tables.
Lemma bind_Some {A B} (m : Run A) (k : A → Run B) σ a σ' :
  m σ = Some (a, σ') → bind m k σ = k a σ'.
Proof. unfold bind. by intros ->. Qed.

Lemma fresh_lookup σ : σ !! fresh (dom σ) = None.
Proof. apply not_elem_of_dom, is_fresh. Qed.

Lemma fresh_ne σ l o : σ !! l = Some o → fresh (dom σ) ≠ l.
Proof. intros Hl Heq. rewrite <- Heq, fresh_lookup in Hl. done. Qed.

Lemma new_Some o σ : new o σ = Some (fresh (dom σ), <[fresh (dom σ) := o]> σ).
Proof. done. Qed.

Lemma read_Some {V} (view : Object → option V) l σ o v :
  σ !! l = Some o → view o = Some v → read view l σ = Some (v, σ).
Proof. unfold read. intros -> Hv. simpl. by rewrite Hv. Qed.

(** [buildGraphData] allocates two tables and leaves the built graph in
    them; the store it started from is unchanged. *)
Lemma buildGraphData_store_refines defs σ :
  ∃ ln ld σ',
    σ ⊆ σ' ∧
    σ' !! ln = Some (ONodes (nodes (buildGraphData defs))) ∧
    σ' !! ld = Some (ODownstream (downstream (buildGraphData defs))) ∧
    buildGraphData_store defs σ = Some ((ln, ld), σ').
Proof.
  unfold buildGraphData_store.
  set (ln := fresh (dom σ)). set (σ1 := <[ln := ONodes []]> σ).
  set (ld := fresh (dom σ1)). set (σ2 := <[ld := ODownstream []]> σ1).
  assert (σ !! ln = None) as Hln by apply fresh_lookup.
  assert (σ1 !! ld = None) as Hld by apply fresh_lookup.
  assert (ln ≠ ld) as Hne.
  { intros Heq. unfold σ1 in Hld. by rewrite <- Heq, lookup_insert_eq in Hld. }
  assert (σ !! ld = None) as Hld0 by (by unfold σ1 in Hld; rewrite lookup_insert_ne in Hld).
  exists ln, ld,
    (<[ld := ODownstream (downstream (buildGraphData defs))]>
       (<[ln := ONodes (nodes (buildGraphData defs))]> σ2)).
  split_and!.
  - do 2 (apply insert_subseteq_r; [done|]; apply insert_subseteq_r; [done|]). done.
  - rewrite lookup_insert_ne by done. apply lookup_insert_eq.
  - apply lookup_insert_eq.
  - rewrite (bind_Some _ _ _ _ _ (new_Some _ σ)). fold ln σ1.
    rewrite (bind_Some _ _ _ _ _ (new_Some _ σ1)). fold ld σ2.
    erewrite bind_Some; [done|].
    apply (build_loop ln ld defs σ2 [] []); [done| |apply lookup_insert_eq].
    unfold σ2. rewrite lookup_insert_ne by done. apply lookup_insert_eq.
Qed.

Lemma upstream_loop ld lu us σ ds (up0 : gmap string (list string)) :
  lu ≠ ld →
  σ !! ld = Some (ODownstream ds) → σ !! lu = Some (OUpstream up0) →
  for_each us
    (λ upstreamId,
       let* downstream := read as_downstream ld in
       for_each (JsObject.keys (default [] (JsObject.get downstream upstreamId)))
         (λ downstreamId,
            modify as_upstream OUpstream lu
              (λ m, <[downstreamId := default [] (m !! downstreamId) ++ [upstreamId]]> m)))%run
    σ =
  Some (tt,
        <[lu := OUpstream
                  (fold_left
                     (λ (upstream : gmap string (list string)) upstreamId,
                        fold_left
                          (λ (upstream : gmap string (list string)) downstreamId,
                             <[downstreamId :=
                                 default [] (upstream !! downstreamId) ++ [upstreamId]]> upstream)
                          (JsObject.keys (default [] (JsObject.get ds upstreamId))) upstream)
                     us up0)]> σ).
Proof.
  intros Hne. revert σ up0. induction us as [|u us IH]; intros σ up0 Hd Hu;
    cbn [for_each fold_left].
  - unfold ret. by rewrite insert_id.
  - erewrite bind_Some.
    2:{ erewrite bind_Some; [|by eapply read_Some].
        by apply (for_each_modify as_upstream OUpstream lu
                    (λ downstreamId (m : gmap string (list string)),
                       <[downstreamId := default [] (m !! downstreamId) ++ [u]]> m) _ _ up0). }
    erewrite IH; [|by rewrite lookup_insert_ne|apply lookup_insert_eq].
    by rewrite insert_insert_eq.
Qed.

Lemma mark_loop ls assets σ (st : gmap string Status) :
  σ !! ls = Some (OStatuses st) →
  for_each assets
    (λ asset,
       if Nat.eqb (length (assetMaterializations (Node.definition asset))) 0
       then modify as_statuses OStatuses ls (λ m, <[Node.id asset := none]> m)
       else ret tt) σ =
  Some (tt,
        <[ls := OStatuses
                  (fold_left
                     (λ (statuses : gmap string Status) asset,
                        if Nat.eqb (length (assetMaterializations (Node.definition asset))) 0
                        then <[Node.id asset := none]> statuses
                        else statuses)
                     assets st)]> σ).
Proof.
  revert σ st. induction assets as [|a assets IH]; intros σ st Hs; cbn [for_each fold_left].
  - unfold ret. by rewrite insert_id.
  - unfold bind. destruct (Nat.eqb _ _).
    + unfold modify. rewrite Hs. cbn [mbind option_bind as_statuses].
      erewrite IH by apply lookup_insert_eq. by rewrite insert_insert_eq.
    + unfold ret. by apply IH.
Qed.

(** [buildGraphComputeStatuses] reads the two tables of the graph, allocates
    three of its own and returns the location of [statuses], which then holds
    the map of the store-free function. *)
Lemma buildGraphComputeStatuses_store_refines fuel ln ld σ g :
  σ !! ln = Some (ONodes (nodes g)) →
  σ !! ld = Some (ODownstream (downstream g)) →
  ∃ ls σ',
    σ' !! ls = None ∧ σ ⊆ σ' ∧
    buildGraphComputeStatuses_store fuel (ln, ld) σ =
    match buildGraphComputeStatuses fuel g with
    | Some m => Some (ls, <[ls := OStatuses m]> σ')
    | None => None
    end.
Proof.
  intros Hn Hd. unfold buildGraphComputeStatuses_store. cbn [fst snd].
  set (lt := fresh (dom σ)).
  set (σ1 := <[lt := OTimestamps ∅]> σ).
  set (σ2 := <[lt := OTimestamps (collect_timestamps g)]> σ).
  set (lu := fresh (dom σ2)).
  set (σ3 := <[lu := OUpstream ∅]> σ2).
  set (σ4 := <[lu := OUpstream (collect_upstream g)]> σ2).
  set (ls := fresh (dom σ4)).
  set (σ5 := <[ls := OStatuses ∅]> σ4).
  set (σ6 := <[ls := OStatuses (mark_unmaterialized g)]> σ4).
  assert (σ !! lt = None) as Hlt by apply fresh_lookup.
  assert (σ2 !! lu = None) as Hlu by apply fresh_lookup.
  assert (σ4 !! ls = None) as Hls by apply fresh_lookup.
  assert (lt ≠ ln) as Htn by (by eapply fresh_ne).
  assert (lt ≠ ld) as Htd by (by eapply fresh_ne).
  assert (σ2 !! ln = Some (ONodes (nodes g))) as Hn2 by (by unfold σ2; rewrite lookup_insert_ne).
  assert (σ2 !! ld = Some (ODownstream (downstream g))) as Hd2
    by (by unfold σ2; rewrite lookup_insert_ne).
  assert (σ2 !! lt = Some (OTimestamps (collect_timestamps g))) as Ht2
    by apply lookup_insert_eq.
  assert (lu ≠ ln) as Hun by (by eapply fresh_ne).
  assert (lu ≠ ld) as Hud by (by eapply fresh_ne).
  assert (lu ≠ lt) as Hut by (by eapply fresh_ne).
  assert (σ4 !! ln = Some (ONodes (nodes g))) as Hn4 by (by unfold σ4; rewrite lookup_insert_ne).
  assert (σ4 !! lt = Some (OTimestamps (collect_timestamps g))) as Ht4
    by (by unfold σ4; rewrite lookup_insert_ne).
  assert (σ4 !! lu = Some (OUpstream (collect_upstream g))) as Hu4 by apply lookup_insert_eq.
  assert (ls ≠ ln) as Hsn by (by eapply fresh_ne).
  assert (ls ≠ lt) as Hst by (by eapply fresh_ne).
  assert (ls ≠ lu) as Hsu by (by eapply fresh_ne).
  exists ls, σ4. split_and!; [done| |].
  { unfold σ4. apply insert_subseteq_r.
    - unfold σ2 in Hlu. by apply lookup_insert_None in Hlu as [? _].
    - by apply insert_subseteq_r. }
  rewrite (bind_Some _ _ _ _ _ (new_Some _ σ)). fold lt σ1.
  erewrite bind_Some; [|eapply read_Some; [by unfold σ1; rewrite lookup_insert_ne|done]].
  erewrite bind_Some.
  2:{ apply (for_each_modify as_timestamps OTimestamps lt
               (λ node (m : gmap string Q),
                  <[Node.id node := latest_startTime (Node.definition node)]> m) _ _ ∅);
        [done|apply lookup_insert_eq]. }
  unfold σ1. rewrite insert_insert_eq. fold (collect_timestamps g). fold σ2.
  rewrite (bind_Some _ _ _ _ _ (new_Some _ σ2)). fold lu σ3.
  erewrite bind_Some; [|eapply read_Some; [by unfold σ3; rewrite lookup_insert_ne|done]].
  erewrite bind_Some.
  2:{ eapply (upstream_loop ld lu _ _ (downstream g) ∅);
        [done|by unfold σ3; rewrite lookup_insert_ne|apply lookup_insert_eq]. }
  unfold σ3. rewrite insert_insert_eq.
  change (fold_left _ (JsObject.keys (downstream g)) ∅) with (collect_upstream g).
  fold σ4.
  rewrite (bind_Some _ _ _ _ _ (new_Some _ σ4)). fold ls σ5.
  erewrite bind_Some; [|eapply read_Some; [by unfold σ5; rewrite lookup_insert_ne|done]].
  erewrite bind_Some.
  2:{ apply (mark_loop ls _ _ ∅). apply lookup_insert_eq. }
  unfold σ5. rewrite insert_insert_eq. fold (mark_unmaterialized g). fold σ6.
  erewrite bind_Some; [|eapply read_Some; [by unfold σ6; rewrite lookup_insert_ne|done]].
  unfold bind.
  rewrite (compute_loop_refines lt ls lu (collect_timestamps g) (collect_upstream g)
             Hst Hsu fuel _ σ6 (mark_unmaterialized g)).
  2:{ unfold holds, σ6. split_and!; [by rewrite lookup_insert_ne..|apply lookup_insert_eq]. }
  unfold buildGraphComputeStatuses.
  destruct (compute_each _ _ _ _ _); [|done].
  unfold ret, σ6. by rewrite insert_insert_eq.
Qed.

(** A returning call only adds entries to the memo table it was given and
    leaves the status it returns under [id]; no acyclicity is needed. *)
Lemma find_grows fuel ts up (st : gmap string Status) id s st' :
  findComputeStatusForId fuel ts st up id = Some (s, st') →
  st ⊆ st' ∧ st' !! id = Some s.
Proof.
  revert st id s st'. induction fuel as [|fuel IH]; intros st id s st'; [done|].
  rewrite find_unfold.
  destruct (st !! id) as [s0|] eqn:Hid; [by intros [= <- <-]|].
  assert (∀ (st1 : gmap string Status) s1, st ⊆ st1 → st ⊆ <[id := s1]> st1) as Hins.
  { intros st1 s1 Hsub. by apply insert_subseteq_r. }
  destruct (has_newer_upstream _ _ _).
  { intros [= <- <-]. split; [by apply Hins|apply lookup_insert_eq]. }
  destruct (some_st _ _ _) as [[b st1]|] eqn:Hsome; [|done].
  assert (PreOrder (⊆@{gmap string Status})) as Hpre by apply _.
  apply (some_st_inv _ (λ _, True) (⊆) (λ _ _, True) (λ _ _, True))
    in Hsome as (_ & Hsub & _); [| |done..].
  2:{ intros st2 u b2 st3 _ _ Hcall.
      destruct (findComputeStatusForId fuel ts st2 up u) as [[su st4]|] eqn:Hrec; [|done].
      injection Hcall as <- <-. apply IH in Hrec as [? _]. by destruct (bool_decide _). }
  destruct b; intros [= <- <-]; (split; [by apply Hins|apply lookup_insert_eq]).
Qed.

Lemma compute_each_covers fuel ts up assets (st m : gmap string Status) :
  compute_each fuel ts up assets st = Some m →
  st ⊆ m ∧ ∀ a, a ∈ assets → is_Some (m !! JSON_stringify (path (Node.assetKey a))).
Proof.
  revert st. induction assets as [|a assets IH]; intros st; simpl.
  - intros [= <-]. split; [done|]. by intros a ?%elem_of_nil.
  - destruct (findComputeStatusForId fuel _ _ _ _) as [[s st']|] eqn:Hfind; [|done].
    apply find_grows in Hfind as [Hsub Hs]. rewrite (insert_id _ _ _ Hs). intros Hrest.
    apply IH in Hrest as [Hsubm Hall]. split; [by etrans|].
    intros a' [->|Ha']%elem_of_cons; [|by apply Hall].
    exists s. by eapply lookup_weaken.
Qed.

(** Every definition of the list has an entry in a returned status map. *)
Lemma buildGraphComputeStatuses_covers fuel defs m def :
  buildGraphComputeStatuses fuel (buildGraphData defs) = Some m →
  def ∈ defs → is_Some (m !! JSON_stringify (path (assetKey def))).
Proof.
  intros [_ Hall]%compute_each_covers Hin.
  destruct (is_node_value (buildGraphData defs) (JSON_stringify (path (assetKey def))))
    as (n & Hn & _ & <-); [apply buildGraphData_wf_nodes| |by apply Hall].
  unfold is_node. rewrite <- get_is_Some, get_nodes_buildGraphData, fmap_is_Some.
  by apply last_definition_is_Some.
Qed.

(** On every store, the composition allocates its result at a location the
    store does not use, changes nothing the store held, and the table at the
    result is the one computed without a store. *)
Lemma build_then_computeStatuses_refines fuel defs σ :
  ∃ r σ',
    σ' !! r = None ∧ σ ⊆ σ' ∧
    build_then_computeStatuses fuel defs σ =
    match buildGraphComputeStatuses fuel (buildGraphData defs) with
    | Some m => Some (r, <[r := OStatuses m]> σ')
    | None => None
    end.
Proof.
  destruct (buildGraphData_store_refines defs σ) as (ln & ld & σ0 & Hsub0 & Hn & Hd & Hbuild).
  destruct (buildGraphComputeStatuses_store_refines fuel ln ld σ0 (buildGraphData defs) Hn Hd)
    as (r & σ' & Hr & Hsub & Hrun).
  exists r, σ'. split_and!; [done|by etrans|].
  unfold build_then_computeStatuses. by rewrite (bind_Some _ _ _ _ _ Hbuild).
Qed.

Lemma build_then_computeStatuses_returns fuel defs σ r σ' :
  build_then_computeStatuses fuel defs σ = Some (r, σ') →
  σ !! r = None ∧ σ ⊆ σ' ∧
  ∃ m, buildGraphComputeStatuses fuel (buildGraphData defs) = Some m ∧
       σ' !! r = Some (OStatuses m).
Proof.
  destruct (build_then_computeStatuses_refines fuel defs σ) as (r0 & σ0 & Hr0 & Hsub & ->).
  destruct (buildGraphComputeStatuses _ _) as [m|]; [|done]. intros [= <- <-].
  split_and!.
  - by eapply lookup_weaken_None.
  - by apply insert_subseteq_r; [eapply lookup_weaken_None|].
  - exists m. split; [done|apply lookup_insert_eq].
Qed.

(** C8. Build followed by the status computation, run on a store of
    objects: an invocation that returns has allocated its status map at a
    location the store did not use and has left every object of the store as
    it was; the map is the one the store-free embedding computes and has an
    entry for every definition of the list; and every other invocation on the
    same list, from whatever store (in particular the store left by the first
    one), returns as soon as it has as much fuel and, whenever it returns,
    holds the same map at its result. On a list whose built graph is acyclic
    invocations do return, from every store. *)
Theorem build_then_computeStatuses_repeatable (defs : list AssetDefinition) :
  (∀ fuel σ r σ',
     build_then_computeStatuses fuel defs σ = Some (r, σ') →
     σ !! r = None ∧ σ ⊆ σ' ∧
     ∃ m,
       σ' !! r = Some (OStatuses m) ∧
       buildGraphComputeStatuses fuel (buildGraphData defs) = Some m ∧
       (∀ def, def ∈ defs → is_Some (m !! JSON_stringify (path (assetKey def)))) ∧
       ∀ fuel2 σ2,
         (fuel ≤ fuel2 → is_Some (build_then_computeStatuses fuel2 defs σ2)) ∧
         (∀ r2 σ2', build_then_computeStatuses fuel2 defs σ2 = Some (r2, σ2') →
                    σ2' !! r2 = Some (OStatuses m))) ∧
  (acyclic (buildGraphData defs) →
   ∃ N, ∀ fuel σ, N ≤ fuel → is_Some (build_then_computeStatuses fuel defs σ)).
Proof.
  split.
  - intros fuel σ r σ' (Hfresh & Hsub & m & Hm & Hr)%build_then_computeStatuses_returns.
    split_and!; [done..|]. exists m. split_and!; [done..| |].
    { intros def. by apply (buildGraphComputeStatuses_covers fuel). }
    intros fuel2 σ2. split.
    + intros Hle.
      destruct (build_then_computeStatuses_refines fuel2 defs σ2) as (r2 & σ2' & _ & _ & ->).
      unfold buildGraphComputeStatuses in *.
      by rewrite (compute_each_mono _ _ _ _ _ _ _ Hle Hm).
    + intros r2 σ2' (_ & _ & m2 & Hm2 & Hr2)%build_then_computeStatuses_returns.
      by rewrite (buildGraphComputeStatuses_fuel_independent _ _ _ _ _ Hm Hm2).
  - intros Hacyc.
    destruct (buildGraphComputeStatuses_acyclic _ Hacyc) as (N & m & Hrun & _).
    exists N. intros fuel σ Hle.
    destruct (build_then_computeStatuses_refines fuel defs σ) as (r & σ' & _ & _ & ->).
    by rewrite (Hrun fuel Hle).
Qed.

Lemma build_then_computeStatuses_repeatable_witness :
  ∃ r1 σ1 r2 σ2,
    build_then_computeStatuses 5 (chain3 10 5 20) ∅ = Some (r1, σ1) ∧
    build_then_computeStatuses 5 (chain3 10 5 20) σ1 = Some (r2, σ2) ∧
    r1 ≠ r2 ∧
    σ2 !! r1 =
      Some (OStatuses {[ idA := good; idB := old; idC := downstream_from_old ]}) ∧
    σ2 !! r2 =
      Some (OStatuses {[ idA := good; idB := old; idC := downstream_from_old ]}).
Proof.
  destruct (build_then_computeStatuses_repeatable (chain3 10 5 20)) as [Hrun _].
  destruct (build_then_computeStatuses 5 (chain3 10 5 20) ∅) as [[r1 σ1]|] eqn:H1;
    [|by vm_compute in H1].
  destruct (Hrun 5 ∅ r1 σ1 H1) as (_ & _ & m & Hr1 & Hm & _ & Hnext).
  assert (m = {[ idA := good; idB := old; idC := downstream_from_old ]}) as ->.
  { vm_compute in Hm. injection Hm as <-. vm_compute. reflexivity. }
  destruct (Hnext 5 σ1) as [[[r2 σ2] H2] Hsame]; [lia|].
  exists r1, σ1, r2, σ2.
  destruct (Hrun 5 σ1 r2 σ2 H2) as (Hfresh & Hsub & _).
  split_and!; [done|done| |by eapply lookup_weaken|by apply Hsame].
  intros ->. by rewrite Hfresh in Hr1.
Defined.

(** On the cycle A → B → C → A, where nothing is materialized, the
    composition returns: every status is preset and found in the memo
    table. *)
Example build_then_computeStatuses_returns_on_cycle3 :
  ∃ r σ,
    build_then_computeStatuses 1 cycle3 ∅ = Some (r, σ) ∧
    σ !! r = Some (OStatuses {[ idA := none; idB := none; idC := none ]}).
Proof. eexists _, _. split; vm_compute; reflexivity. Qed.
End store.
